(** * GPyTorch: spectral autoregressive-flow kernels and the abstract
      variational strategy

    A shallow embedding of
    - [gpytorch/kernels/spectral_autoregressive_flow_kernel.py]
      (modules [Kernel] and [KernelIEEE] below) and
    - [gpytorch/variational/_variational_strategy.py]
      (module [Strategy] below),
    with the properties of their behaviour that the specification states.

    In module [Kernel] tensors hold real numbers: it reasons about the
    arithmetic the kernels denote ([cos], [exp], [ln] on [R]), which is
    what decides shapes, broadcasting, symmetry and the weights.  What the
    plain kernel returns entry by entry depends on the floating-point
    arithmetic as well (a zero lengthscale, an overflow, NaN); module
    [KernelIEEE] follows its [forward] with IEEE 754 numbers. *)

From Stdlib Require Import Reals Lra Lia List ZArith String Sorted.
From stdpp Require Import base option list gmap strings.
Import ListNotations.

(** ** Python results: a value or a raised exception *)

Inductive exn : Type :=
| TypeError (msg : string)
| RuntimeError (msg : string)
| NotImplementedError
| OtherError (msg : string).

Inductive result (A : Type) : Type :=
| Ok (a : A)
| Raise (e : exn).
Arguments Ok {A} a.
Arguments Raise {A} e.

Module Kernel.

Local Open Scope R_scope.

(** *** Tensors

    A tensor of rank [k] is a [k]-fold nested list of reals, outermost
    axis first; the rows of one axis all have the same shape. *)

Fixpoint nest (A : Type) (k : nat) : Type :=
  match k with
  | O => A
  | S k' => list (nest A k')
  end.

Abbreviation tensor := (nest R).

(** [at_depth k f] applies [f] below the [k] leading axes. *)
Fixpoint at_depth {A B : Type} (k : nat) (f : A -> B) : nest A k -> nest B k :=
  match k with
  | O => f
  | S k' => map (at_depth k' f)
  end.

(** Pointwise operations, e.g. [t.cos()], [t.exp()], [t.mul(c)]. *)
Definition tmap (k : nat) (f : R -> R) : tensor k -> tensor k :=
  at_depth (A:=R) (B:=R) k f.

Definition zipM {A B C : Type} (g : A -> B -> option C)
  : list A -> list B -> option (list C) :=
  fix go (l1 : list A) (l2 : list B) : option (list C) :=
    match l1, l2 with
    | [], [] => Some []
    | a :: l1', b :: l2' => c ← g a b; cs ← go l1' l2'; Some (c :: cs)
    | _, _ => None
    end.

(** One axis of torch's broadcasting: axes of equal size are paired up, an
    axis of size 1 is repeated along the other one, and any other pair of
    sizes raises ([None]).  (The trailing sizes below an axis of size 0 are
    not visible in a nested list and are not compared.) *)
Definition broadcast_axis {A B C : Type} (g : A -> B -> option C)
    (l1 : list A) (l2 : list B) : option (list C) :=
  if (length l1 =? length l2)%nat then zipM g l1 l2
  else match l1, l2 with
       | [a], _ => mapM (g a) l2
       | _, [b] => mapM (fun a => g a b) l1
       | _, _ => None
       end.

(** A binary operator on two tensors of the same rank, broadcast. *)
Fixpoint tbinop (k : nat) (f : R -> R -> R)
  : tensor k -> tensor k -> option (tensor k) :=
  match k with
  | O => fun a b => Some (f a b)
  | S k' => broadcast_axis (tbinop k' f)
  end.

Definition tsub (k : nat) := tbinop k Rminus.
Definition tmul (k : nat) := tbinop k Rmult.

(** Entrywise sum of two tensors of one shape. *)
Fixpoint tadd (k : nat) : tensor k -> tensor k -> tensor k :=
  match k with
  | O => Rplus
  | S k' => zip_with (tadd k')
  end.

Definition Rsum (l : list R) : R := fold_right Rplus 0 l.

(** [t.sum(-1)] on a tensor of rank [k + 1]. *)
Fixpoint sum_last (k : nat) : tensor (S k) -> tensor k :=
  match k with
  | O => Rsum
  | S k' => map (sum_last k')
  end.

(** [t.mean(dim)] over the leading axis: the rows are added up and divided
    by their number.  Over an empty axis there is no mean (torch yields
    NaN entries). *)
Definition mean0 (k : nat) (t : tensor (S k)) : option (tensor k) :=
  match t with
  | [] => None
  | r :: rs => Some (tmap k (fun v => v / INR (length t)) (fold_left (tadd k) rs r))
  end.

(** [t.unsqueeze(-1)], [t.unsqueeze(-2)], ... on tensors of the ranks at
    which the kernels use them. *)
Definition unsqueeze_m1_r2 (t : tensor 2) : tensor 3 :=
  at_depth (A:=R) 2 (fun v => [v]) t.
Definition unsqueeze_m2_r2 (t : tensor 2) : tensor 3 :=
  at_depth (A:=tensor 1) 1 (fun v => [v]) t.
Definition unsqueeze_m3_r2 (t : tensor 2) : tensor 3 := [t].
Definition unsqueeze_m2_r3 (t : tensor 3) : tensor 4 :=
  at_depth (A:=tensor 1) 2 (fun v => [v]) t.
Definition unsqueeze_m3_r3 (t : tensor 3) : tensor 4 :=
  at_depth (A:=tensor 2) 1 (fun v => [v]) t.
Definition unsqueeze_m4_r3 (t : tensor 3) : tensor 4 := [t].

(** [t.transpose(-1, -2)] of a matrix: column [j] of [t] becomes row [j].
    The number of columns is read off the first row: a nested list without
    rows does not record it, and its transpose is taken to have no rows
    either (torch gives a [d x 0] tensor for a [0 x d] one). *)
Definition transpose_r2 (t : tensor 2) : tensor 2 :=
  map (fun j => map (fun row => nth j row 0) t)
      (seq 0 (match t with [] => 0 | row :: _ => length row end)).

#[local] Instance R_eq_dec : EqDecision R := Req_dec_T.

(** [torch.equal(a, b)]: same shape and same entries.  (The entries are
    real numbers; a floating-point tensor that holds NaN is not equal to
    itself.) *)
Definition torch_equal (a b : tensor 2) : bool := bool_decide (a = b).

(** *** [SpectralAutoregressiveFlowKernel._create_input_grid]

    Besides the two gridded tensors the model returns the torch calls the
    method made, in order, so that what it computes and what it skips can
    be told apart. *)

Inductive operand : Type := X1 | X2.

Inductive torch_call : Type :=
| call_transpose (x : operand)
| call_unsqueeze (x : operand) (dim : Z)
| call_equal.

Definition grid_rank (diag last_dim_is_batch : bool) : nat :=
  match last_dim_is_batch, diag with
  | false, true => 2
  | false, false => 3
  | true, true => 3
  | true, false => 4
  end.

Definition grid (diag last_dim_is_batch : bool) : Type :=
  (tensor (grid_rank diag last_dim_is_batch)
   * tensor (grid_rank diag last_dim_is_batch)
   * list torch_call)%type.

Definition _create_input_grid (x1 x2 : tensor 2) (diag last_dim_is_batch : bool)
  : grid diag last_dim_is_batch :=
  match last_dim_is_batch return grid diag last_dim_is_batch with
  | true =>
      (* x1_ = x1_.transpose(-1, -2).unsqueeze(-1) *)
      let x1_ := unsqueeze_m1_r2 (transpose_r2 x1) in
      let calls := [call_transpose X1; call_unsqueeze X1 (-1)] in
      (* if torch.equal(x1, x2): x2_ = x1_  else: transform x2 as well *)
      let '(x2_, calls) :=
        if torch_equal x1 x2
        then (x1_, calls ++ [call_equal])
        else (unsqueeze_m1_r2 (transpose_r2 x2),
              calls ++ [call_equal; call_transpose X2; call_unsqueeze X2 (-1)]) in
      match diag return grid diag true with
      | true => (x1_, x2_, calls)
      | false => (unsqueeze_m2_r3 x1_, unsqueeze_m3_r3 x2_,
                  calls ++ [call_unsqueeze X1 (-2); call_unsqueeze X2 (-3)])
      end
  | false =>
      let x1_ := x1 in
      let x2_ := x2 in
      match diag return grid diag false with
      | true => (x1_, x2_, [])
      | false => (unsqueeze_m2_r2 x1_, unsqueeze_m3_r2 x2_,
                  [call_unsqueeze X1 (-2); call_unsqueeze X2 (-3)])
      end
  end.

(** *** The two [forward] methods *)

Definition out_rank (diag : bool) : nat := if diag then 1%nat else 2%nat.

Section Forward.

(** [self.lengthscale] (one positive number: the kernel is built without
    [ard_num_dims]), [self.training], and the flow-transformed
    distribution [dsf_dist], built from the base normal distribution and
    [self.dsf] (one flow or the list of a [ModuleList]): [omega i] is the
    [i]-th frequency vector that [rsample] draws in this evaluation,
    [log_prob] its log-density.  The inputs [x1] and [x2] are point sets
    without batch dimensions, of shapes [n x d] and [m x d]; [None] is a
    shape error raised by torch. *)
Variable lengthscale : R.
Variable training : bool.
Variable omega : nat -> tensor 1.
Variable log_prob : tensor 1 -> R.

Definition rsample (n : nat) : tensor 2 := map omega (seq 0 n).

(** [x.div(self.lengthscale)] *)
Definition div_lengthscale (x : tensor 2) : tensor 2 :=
  tmap 2 (fun v => v / lengthscale) x.

(** [t.mul(2 * math.pi).cos()] *)
Definition cos_2pi (k : nat) (t : tensor k) : tensor k :=
  tmap k (fun v => cos (v * (2 * PI))) t.

(** [SpectralAutoregressiveFlowKernel.forward] *)
Definition forward (x1 x2 : tensor 2) (diag : bool)
  : option (tensor (out_rank diag)) :=
  let x1_ := div_lengthscale x1 in
  let x2_ := div_lengthscale x2 in
  let Z := if training then rsample 2000 else rsample 2000 in
  match diag return option (tensor (out_rank diag)) with
  | true =>
      let '(x1_, x2_, _) := _create_input_grid x1_ x2_ true false in
      diffs ← tsub 2 x1_ x2_;
      prod ← tmul 3 (unsqueeze_m2_r2 Z) (unsqueeze_m3_r2 diffs);
      let diffs_times_Z := sum_last 2 prod in
      mean0 1 (cos_2pi 2 diffs_times_Z)
  | false =>
      let '(x1_, x2_, _) := _create_input_grid x1_ x2_ false false in
      diffs ← tsub 3 x1_ x2_;
      prod ← tmul 4 (unsqueeze_m2_r3 (unsqueeze_m2_r2 Z)) (unsqueeze_m4_r3 diffs);
      let diffs_times_Z := sum_last 3 prod in
      mean0 2 (cos_2pi 3 diffs_times_Z)
  end.

(** [torch.logsumexp(l, -1)] of a vector. *)
Definition logsumexp (l : tensor 1) : R := ln (Rsum (map exp l)).

(** Lines 109-110 and 118-119:
    [log_probs = dsf_dist.log_prob(samples)],
    [norm_log_probs = log_probs - torch.logsumexp(log_probs, -1)],
    and the [.exp()] of line 111 / 120. *)
Definition norm_probs (samples : tensor 2) : tensor 1 :=
  let log_probs := map log_prob samples in
  let norm_log_probs := map (fun l => l - logsumexp log_probs) log_probs in
  tmap 1 exp norm_log_probs.

(** [w.view(1000, 1)] and [w.view(1000, 1, 1)]: raise unless [w] has 1000
    entries. *)
Definition view_1000_1 (w : tensor 1) : option (tensor 2) :=
  if (length w =? 1000)%nat then Some (map (fun a => [a]) w) else None.
Definition view_1000_1_1 (w : tensor 1) : option (tensor 3) :=
  if (length w =? 1000)%nat then Some (map (fun a => [[a]]) w) else None.

(** [TrapezoidalSpectralAutoregressiveFlowKernel.forward] *)
Definition trapezoidal_forward (x1 x2 : tensor 2) (diag : bool)
  : option (tensor (out_rank diag)) :=
  let x1_ := div_lengthscale x1 in
  let x2_ := div_lengthscale x2 in
  match diag return option (tensor (out_rank diag)) with
  | true =>
      let '(x1_, x2_, _) := _create_input_grid x1_ x2_ true false in
      diffs ← tsub 2 x1_ x2_;
      let samples := rsample 1000 in
      prod ← tmul 3 (unsqueeze_m2_r2 samples) (unsqueeze_m3_r2 diffs);
      let diffs_times_Z := sum_last 2 prod in
      norm_probs ← view_1000_1 (norm_probs samples);
      values ← tmul 2 (cos_2pi 2 diffs_times_Z) norm_probs;
      mean0 1 values
  | false =>
      let '(x1_, x2_, _) := _create_input_grid x1_ x2_ false false in
      diffs ← tsub 3 x1_ x2_;
      let samples := rsample 1000 in
      prod ← tmul 4 (unsqueeze_m2_r3 (unsqueeze_m2_r2 samples)) (unsqueeze_m4_r3 diffs);
      let diffs_times_Z := sum_last 3 prod in
      norm_probs ← view_1000_1_1 (norm_probs samples);
      values ← tmul 3 (cos_2pi 3 diffs_times_Z) norm_probs;
      mean0 2 values
  end.

End Forward.

(** *** Construction of the two kernels *)

(** The Python values that reach [stack_size]. *)
Inductive pyval : Type :=
| PyInt (z : Z)
| PyList (items : list pyval).

(** [a > b] for an integer literal [b]: a list on the left is not ordered
    against an [int] and raises [TypeError]. *)
Definition py_gt_int (a : pyval) (b : Z) : result bool :=
  match a with
  | PyInt z => Ok (z >? b)%Z
  | PyList _ =>
      Raise (TypeError "'>' not supported between instances of 'list' and 'int'")
  end.

(** [range(a)] *)
Definition py_range (a : pyval) : result (list nat) :=
  match a with
  | PyInt z => Ok (seq 0 (Z.to_nat z))
  | PyList _ =>
      Raise (TypeError "'list' object cannot be interpreted as an integer")
  end.

Definition result_bind {A B : Type} (r : result A) (k : A -> result B) : result B :=
  match r with
  | Ok a => k a
  | Raise e => Raise e
  end.

Fixpoint result_mapM {A B : Type} (f : A -> result B) (l : list A) : result (list B) :=
  match l with
  | [] => Ok []
  | a :: l' => result_bind (f a) (fun b =>
               result_bind (result_mapM f l') (fun bs => Ok (b :: bs)))
  end.

Section Construction.

(** The collaborators: the keyword arguments, the base class initializer
    [Kernel.__init__(has_lengthscale=True, **kwargs)] and pyro's
    [BlockAutoregressive(num_dims, **kwargs)]. *)
Variable kwargs : Type.
Variable kernel_base : Type.
Variable flow : Type.
Variable Kernel__init__ : kwargs -> result kernel_base.
Variable BlockAutoregressive : nat -> kwargs -> result flow.

(** [self.dsf] is one flow or a [torch.nn.ModuleList] of flows. *)
Inductive dsf_module : Type :=
| SingleFlow (f : flow)
| ModuleList (fs : list flow).

Record kernel : Type := {
  kernel_super : kernel_base;
  kernel_dsf : dsf_module;
  kernel_num_dims : nat
}.

(** [SpectralAutoregressiveFlowKernel.__init__(self, num_dims, stack_size=1, **kwargs)] *)
Definition SpectralAutoregressiveFlowKernel__init__
    (num_dims : nat) (stack_size : pyval) (kw : kwargs) : result kernel :=
  result_bind (Kernel__init__ kw) (fun base =>
  result_bind (py_gt_int stack_size 1) (fun many =>
  result_bind
    (if many
     then result_bind (py_range stack_size) (fun r =>
          result_bind (result_mapM (fun _ => BlockAutoregressive num_dims kw) r) (fun fs =>
          Ok (ModuleList fs)))
     else result_bind (BlockAutoregressive num_dims kw) (fun f => Ok (SingleFlow f)))
    (fun dsf =>
  Ok {| kernel_super := base; kernel_dsf := dsf; kernel_num_dims := num_dims |}))).

(** The default [hidden_factors=[8, 8]]. *)
Definition default_hidden_factors : pyval := PyList [PyInt 8; PyInt 8].

(** [TrapezoidalSpectralAutoregressiveFlowKernel.__init__(self, num_dims,
    hidden_factors=[8, 8], **kwargs)]: [super().__init__(num_dims,
    hidden_factors, **kwargs)]. *)
Definition TrapezoidalSpectralAutoregressiveFlowKernel__init__
    (num_dims : nat) (hidden_factors : pyval) (kw : kwargs) : result kernel :=
  SpectralAutoregressiveFlowKernel__init__ num_dims hidden_factors kw.

(** C10. When [hidden_factors] is a list, as its default [[8, 8]] is,
    [TrapezoidalSpectralAutoregressiveFlowKernel.__init__] passes it on as
    [stack_size], the comparison [stack_size > 1] raises [TypeError] as soon
    as the base class initializer has returned, and no kernel object is
    ever produced. *)
Theorem trapezoidal_init_raises (num_dims : nat) (items : list pyval) (kw : kwargs) :
  (forall k, TrapezoidalSpectralAutoregressiveFlowKernel__init__
               num_dims (PyList items) kw <> Ok k)
  /\ (forall k, TrapezoidalSpectralAutoregressiveFlowKernel__init__
                  num_dims default_hidden_factors kw <> Ok k)
  /\ match Kernel__init__ kw with
     | Ok _ =>
         exists msg, TrapezoidalSpectralAutoregressiveFlowKernel__init__
                       num_dims (PyList items) kw = Raise (TypeError msg)
     | Raise e =>
         TrapezoidalSpectralAutoregressiveFlowKernel__init__
           num_dims (PyList items) kw = Raise e
     end.
Proof.
  unfold TrapezoidalSpectralAutoregressiveFlowKernel__init__,
    SpectralAutoregressiveFlowKernel__init__, default_hidden_factors.
  destruct (Kernel__init__ kw) as [base|e]; simpl.
  - repeat split; try discriminate. eexists; reflexivity.
  - repeat split; discriminate.
Qed.

End Construction.

(** *** Broadcasting, axis by axis *)

Lemma broadcast_axis_same_length {A B C} (g : A -> B -> option C) l1 l2 :
  length l1 = length l2 -> broadcast_axis g l1 l2 = zipM g l1 l2.
Proof.
  intros H. unfold broadcast_axis. rewrite H, Nat.eqb_refl. reflexivity.
Qed.

Lemma broadcast_axis_singleton_l {A B C} (g : A -> B -> option C) a l2 :
  broadcast_axis g [a] l2 = mapM (g a) l2.
Proof.
  unfold broadcast_axis. destruct l2 as [|b [|b' l2]]; reflexivity.
Qed.

Lemma broadcast_axis_singleton_r {A B C} (g : A -> B -> option C) l1 b :
  broadcast_axis g l1 [b] = mapM (fun a => g a b) l1.
Proof.
  unfold broadcast_axis. destruct l1 as [|a [|a' l1]]; reflexivity.
Qed.

Lemma zipM_total {A B C} (g : A -> B -> option C) (f : A -> B -> C) l1 l2 :
  length l1 = length l2 ->
  (forall a b, a ∈ l1 -> b ∈ l2 -> g a b = Some (f a b)) ->
  zipM g l1 l2 = Some (zip_with f l1 l2).
Proof.
  revert l2. induction l1 as [|a l1 IH]; intros [|b l2] Hlen Hg;
    try discriminate; [reflexivity|].
  simpl. rewrite Hg by constructor. simpl.
  rewrite IH; [reflexivity|simpl in Hlen; lia|].
  intros a' b' Ha Hb. apply Hg; constructor; assumption.
Qed.

Lemma mapM_total {A B} (g : A -> option B) (f : A -> B) l :
  (forall a, a ∈ l -> g a = Some (f a)) -> mapM g l = Some (map f l).
Proof.
  intros Hg. apply mapM_Some_2.
  induction l as [|a l IH]; simpl; constructor.
  - apply Hg. constructor.
  - apply IH. intros a' Ha'. apply Hg. constructor. exact Ha'.
Qed.

(** Vectors of one length combine entry by entry. *)
Lemma tbinop_vec f (u v : tensor 1) :
  length u = length v -> tbinop 1 f u v = Some (zip_with f u v).
Proof.
  intros H. simpl. rewrite broadcast_axis_same_length by exact H.
  apply zipM_total; [exact H|reflexivity].
Qed.

Lemma zip_with_map_same {I A B C} (f : A -> B -> C) (g : I -> A) (h : I -> B) l :
  zip_with f (map g l) (map h l) = map (fun i => f (g i) (h i)) l.
Proof. induction l as [|i l IH]; simpl; [reflexivity|]. now rewrite IH. Qed.

Lemma fold_zip_map {I A B} (add : B -> B -> B) (F : I -> A -> B) (G : A -> B)
    (ss : list I) (ds : list A) :
  fold_left (zip_with add) (map (fun s => map (F s) ds) ss) (map G ds)
  = map (fun d => fold_left add (map (fun s => F s d) ss) (G d)) ds.
Proof.
  revert G. induction ss as [|s ss IH]; intros G; simpl; [reflexivity|].
  rewrite zip_with_map_same. apply (IH (fun d => add (G d) (F s d))).
Qed.

Lemma fold_left_Rplus (l : list R) (a : R) : fold_left Rplus l a = a + Rsum l.
Proof.
  revert a. induction l as [|x l IH]; intros a; simpl; [lra|].
  rewrite IH. lra.
Qed.

Lemma mapM_map {A B C} (g : B -> option C) (h : A -> B) l :
  mapM g (map h l) = mapM (fun a => g (h a)) l.
Proof. induction l as [|a l IH]; simpl; [reflexivity|]. now rewrite IH. Qed.

Lemma map_zip_with {A B C E} (F : C -> E) (g : A -> B -> C) l1 l2 :
  map F (zip_with g l1 l2) = zip_with (fun a b => F (g a b)) l1 l2.
Proof.
  revert l2. induction l1 as [|a l1 IH]; intros [|b l2]; simpl; try reflexivity.
  now rewrite IH.
Qed.

Lemma zip_with_map_map {A A' B B' C} (f : A' -> B' -> C) (g : A -> A') (h : B -> B') l1 l2 :
  zip_with f (map g l1) (map h l2) = zip_with (fun a b => f (g a) (h b)) l1 l2.
Proof.
  revert l2. induction l1 as [|a l1 IH]; intros [|b l2]; simpl; try reflexivity.
  now rewrite IH.
Qed.

(** *** Shapes and closed forms *)

(** [x] has [n] rows of [D] entries each. *)
Definition rect (n D : nat) (x : tensor 2) : Prop :=
  length x = n /\ Forall (fun r => length r = D) x.

Definition dot (z d : tensor 1) : R := Rsum (zip_with Rmult z d).

(** The difference of two points after each is divided by the lengthscale. *)
Definition scaled_diff (lengthscale : R) (r1 r2 : tensor 1) : tensor 1 :=
  zip_with Rminus (map (fun v => v / lengthscale) r1) (map (fun v => v / lengthscale) r2).

Lemma length_scaled_diff l r1 r2 D :
  length r1 = D -> length r2 = D -> length (scaled_diff l r1 r2) = D.
Proof.
  intros H1 H2. unfold scaled_diff.
  rewrite length_zip_with, !length_map. lia.
Qed.

Lemma tsub_diag_closed l n D (x1 x2 : tensor 2) :
  rect n D x1 -> rect n D x2 ->
  tsub 2 (div_lengthscale l x1) (div_lengthscale l x2)
  = Some (zip_with (scaled_diff l) x1 x2).
Proof.
  intros [Hn1 HD1] [Hn2 HD2]. unfold tsub, div_lengthscale, tmap. simpl.
  rewrite broadcast_axis_same_length by (rewrite !length_map; lia).
  rewrite (zipM_total _ (zip_with Rminus)).
  - rewrite zip_with_map_map. reflexivity.
  - rewrite !length_map. lia.
  - intros a b Ha Hb. apply (tbinop_vec Rminus).
    apply list_elem_of_In, in_map_iff in Ha as (a' & <- & Ha').
    apply list_elem_of_In, in_map_iff in Hb as (b' & <- & Hb').
    rewrite !length_map.
    rewrite Forall_forall in HD1, HD2.
    rewrite (HD1 a'), (HD2 b') by (apply list_elem_of_In; assumption).
    reflexivity.
Qed.

Lemma tsub_full_closed l n m D (x1 x2 : tensor 2) :
  rect n D x1 -> rect m D x2 ->
  tsub 3 (unsqueeze_m2_r2 (div_lengthscale l x1)) (unsqueeze_m3_r2 (div_lengthscale l x2))
  = Some (map (fun r1 => map (fun r2 => scaled_diff l r1 r2) x2) x1).
Proof.
  intros [Hn1 HD1] [Hn2 HD2].
  unfold tsub, unsqueeze_m2_r2, unsqueeze_m3_r2, div_lengthscale, tmap. simpl.
  rewrite broadcast_axis_singleton_r, !mapM_map.
  apply mapM_total. intros r1 Hr1.
  rewrite broadcast_axis_singleton_l, mapM_map.
  apply mapM_total. intros r2 Hr2.
  apply (tbinop_vec Rminus). rewrite !length_map.
  rewrite Forall_forall in HD1, HD2. rewrite (HD1 r1), (HD2 r2); auto.
Qed.

(** [(Z.unsqueeze(-2) * diffs.unsqueeze(-3)).sum(-1)]: one dot product per
    sample and pair. *)
Lemma diffs_times_Z_diag D (Z diffs : tensor 2) :
  Forall (fun z => length z = D) Z -> Forall (fun d => length d = D) diffs ->
  sum_last 2 <$> tmul 3 (unsqueeze_m2_r2 Z) (unsqueeze_m3_r2 diffs)
  = Some (map (fun z => map (fun d => dot z d) diffs) Z).
Proof.
  intros HZ Hd. unfold tmul, unsqueeze_m2_r2, unsqueeze_m3_r2. simpl.
  rewrite broadcast_axis_singleton_r, mapM_map.
  rewrite (mapM_total _ (fun z => map (fun d => zip_with Rmult z d) diffs)).
  - simpl. rewrite map_map. f_equal. apply map_ext. intros z.
    rewrite map_map. reflexivity.
  - intros z Hz. rewrite broadcast_axis_singleton_l.
    apply mapM_total. intros d Hdd. apply (tbinop_vec Rmult).
    rewrite Forall_forall in HZ, Hd. rewrite (HZ z), (Hd d); auto.
Qed.

(** [(Z.unsqueeze(-2).unsqueeze(-2) * diffs.unsqueeze(-4)).sum(-1)] *)
Lemma diffs_times_Z_full D (Z : tensor 2) (diffs : tensor 3) :
  Forall (fun z => length z = D) Z ->
  Forall (Forall (fun d => length d = D)) diffs ->
  sum_last 3 <$> tmul 4 (unsqueeze_m2_r3 (unsqueeze_m2_r2 Z)) (unsqueeze_m4_r3 diffs)
  = Some (map (fun z => map (map (fun d => dot z d)) diffs) Z).
Proof.
  intros HZ Hd. unfold tmul, unsqueeze_m2_r3, unsqueeze_m2_r2, unsqueeze_m4_r3. simpl.
  rewrite broadcast_axis_singleton_r, !mapM_map.
  rewrite (mapM_total _ (fun z => map (map (fun d => zip_with Rmult z d)) diffs)).
  - simpl. rewrite map_map. f_equal. apply map_ext. intros z.
    rewrite map_map. apply map_ext. intros row.
    rewrite map_map. reflexivity.
  - intros z Hz. simpl. rewrite broadcast_axis_singleton_l.
    apply mapM_total. intros row Hrow.
    rewrite broadcast_axis_singleton_l.
    apply mapM_total. intros d Hdd. apply (tbinop_vec Rmult).
    rewrite Forall_forall in HZ. rewrite Forall_forall in Hd.
    specialize (Hd row Hrow). rewrite Forall_forall in Hd.
    rewrite (HZ z), (Hd d); auto.
Qed.

(** The mean over the sample axis, entry by entry. *)
Lemma mean0_vectors {I A} (F : I -> A -> R) (ss : list I) (ds : list A) :
  ss <> [] ->
  mean0 1 (map (fun s => map (F s) ds) ss)
  = Some (map (fun d => Rsum (map (fun s => F s d) ss) / INR (length ss)) ds).
Proof.
  intros Hss. destruct ss as [|s0 ss]; [congruence|].
  unfold mean0. cbn [map length]. f_equal. rewrite length_map.
  change (tadd 1) with (zip_with Rplus).
  rewrite (fold_zip_map Rplus F (F s0)). unfold tmap. simpl at_depth. rewrite map_map.
  apply map_ext. intros d. rewrite fold_left_Rplus. reflexivity.
Qed.

Lemma mean0_matrices {I A B} (F : I -> A -> B -> R) (ss : list I)
    (xs : list A) (ys : list B) :
  ss <> [] ->
  mean0 2 (map (fun s => map (fun x => map (F s x) ys) xs) ss)
  = Some (map (fun x => map (fun y =>
            Rsum (map (fun s => F s x y) ss) / INR (length ss)) ys) xs).
Proof.
  intros Hss. destruct ss as [|s0 ss]; [congruence|].
  unfold mean0. cbn [map length]. f_equal. rewrite length_map.
  change (tadd 2) with (zip_with (zip_with Rplus)).
  rewrite (fold_zip_map (zip_with Rplus) (fun s x => map (F s x) ys)
             (fun x => map (F s0 x) ys)).
  unfold tmap. simpl at_depth. rewrite map_map.
  apply map_ext. intros x.
  rewrite (fold_zip_map Rplus (fun s => F s x) (F s0 x)), map_map.
  apply map_ext. intros y. rewrite fold_left_Rplus. reflexivity.
Qed.

Lemma INR_2000 : INR 2000 = 2000.
Proof. rewrite INR_IZR_INZ. reflexivity. Qed.

Lemma INR_1000 : INR 1000 = 1000.
Proof. rewrite INR_IZR_INZ. reflexivity. Qed.

Lemma seq_nonempty (n : nat) : (0 < n)%nat -> seq 0 n <> [].
Proof. destruct n; [lia|discriminate]. Qed.

(** [cos(2 pi z . (x1 / l - x2 / l))], the term of one frequency sample
    [z] for the pair of points [(r1, r2)]. *)
Definition cos_term (lengthscale : R) (z r1 r2 : tensor 1) : R :=
  cos (dot z (scaled_diff lengthscale r1 r2) * (2 * PI)).

Lemma cos_2pi_diag (l : R) {I} (om : I -> tensor 1) (ss : list I) (x1 x2 : tensor 2) :
  cos_2pi 2 (map (fun z => map (fun d => dot z d) (zip_with (scaled_diff l) x1 x2))
                 (map om ss))
  = map (fun s => map (fun p => cos_term l (om s) p.1 p.2) (zip x1 x2)) ss.
Proof.
  unfold cos_2pi, tmap. simpl at_depth. rewrite !map_map.
  apply map_ext. intros s. rewrite map_map.
  rewrite (map_zip_with (fun x => cos (dot (om s) x * (2 * PI)))).
  rewrite (map_zip_with (fun p : tensor 1 * tensor 1 => cos_term l (om s) p.1 p.2) pair).
  reflexivity.
Qed.

Lemma cos_2pi_full (l : R) {I} (om : I -> tensor 1) (ss : list I) (x1 x2 : tensor 2) :
  cos_2pi 3 (map (fun z => map (map (fun d => dot z d))
                   (map (fun r1 => map (fun r2 => scaled_diff l r1 r2) x2) x1))
                 (map om ss))
  = map (fun s => map (fun r1 => map (fun r2 => cos_term l (om s) r1 r2) x2) x1) ss.
Proof.
  unfold cos_2pi, tmap. simpl at_depth. rewrite !map_map.
  apply map_ext. intros s. rewrite !map_map.
  apply map_ext. intros r1. rewrite !map_map. reflexivity.
Qed.

Lemma rect_scaled_diff_diag l n D x1 x2 :
  rect n D x1 -> rect n D x2 ->
  Forall (fun d => length d = D) (zip_with (scaled_diff l) x1 x2).
Proof.
  intros [Hn1 HD1] [Hn2 HD2]. clear Hn1 Hn2. revert x2 HD2.
  induction HD1 as [|r1 x1 Hr1 HD1 IH]; intros x2 HD2; [constructor|].
  destruct HD2 as [|r2 x2 Hr2 HD2]; simpl; constructor; auto.
  apply length_scaled_diff; assumption.
Qed.

Lemma rect_scaled_diff_full l n m D x1 x2 :
  rect n D x1 -> rect m D x2 ->
  Forall (Forall (fun d => length d = D))
         (map (fun r1 => map (fun r2 => scaled_diff l r1 r2) x2) x1).
Proof.
  intros [_ HD1] [_ HD2].
  induction HD1 as [|r1 x1 Hr1 HD1 IH]; simpl; constructor; auto.
  clear IH. induction HD2 as [|r2 x2 Hr2 HD2 IH]; simpl; constructor; auto.
  apply length_scaled_diff; assumption.
Qed.

Lemma bind_of_fmap {A B C} (f : A -> B) (o : option A) (b : B) (k : B -> option C) :
  f <$> o = Some b -> (o ≫= fun a => k (f a)) = k b.
Proof. destruct o; simpl; intros H; [now injection H as <-|discriminate]. Qed.

Lemma samples_length {I} (om : I -> tensor 1) (D : nat) (ss : list I) :
  (forall s, length (om s) = D) -> Forall (fun z => length z = D) (map om ss).
Proof. intros Hom. induction ss; simpl; constructor; auto. Qed.

(** The plain kernel on [n] paired points ([diag=True]). *)
Lemma forward_diag_closed l tr om n D (x1 x2 : tensor 2) :
  rect n D x1 -> rect n D x2 -> (forall s, length (om s) = D) ->
  forward l tr om x1 x2 true
  = Some (map (fun p => Rsum (map (fun s => cos_term l (om s) p.1 p.2) (seq 0 2000)) / 2000)
              (zip x1 x2)).
Proof.
  intros H1 H2 Hom. unfold forward. cbn [_create_input_grid].
  rewrite (tsub_diag_closed l n D) by assumption. cbn [mbind option_bind].
  assert (HZ : (if tr then rsample om 2000 else rsample om 2000) = map om (seq 0 2000))
    by (destruct tr; reflexivity).
  rewrite HZ.
  etransitivity;
    [exact (bind_of_fmap (sum_last 2) _ _ (fun t => mean0 1 (cos_2pi 2 t))
             (diffs_times_Z_diag D _ _ (samples_length om D (seq 0 2000) Hom)
                (rect_scaled_diff_diag l n D x1 x2 H1 H2)))|].
  rewrite cos_2pi_diag, mean0_vectors by (apply seq_nonempty; lia).
  rewrite length_seq, INR_2000. reflexivity.
Qed.

(** The plain kernel on all pairs of [n] and [m] points ([diag=False]). *)
Lemma forward_full_closed l tr om n m D (x1 x2 : tensor 2) :
  rect n D x1 -> rect m D x2 -> (forall s, length (om s) = D) ->
  forward l tr om x1 x2 false
  = Some (map (fun r1 => map (fun r2 =>
            Rsum (map (fun s => cos_term l (om s) r1 r2) (seq 0 2000)) / 2000) x2) x1).
Proof.
  intros H1 H2 Hom. unfold forward. cbn [_create_input_grid].
  rewrite (tsub_full_closed l n m D) by assumption. cbn [mbind option_bind].
  assert (HZ : (if tr then rsample om 2000 else rsample om 2000) = map om (seq 0 2000))
    by (destruct tr; reflexivity).
  rewrite HZ.
  etransitivity;
    [exact (bind_of_fmap (sum_last 3) _ _ (fun t => mean0 2 (cos_2pi 3 t))
             (diffs_times_Z_full D _ _ (samples_length om D (seq 0 2000) Hom)
                (rect_scaled_diff_full l n m D x1 x2 H1 H2)))|].
  rewrite cos_2pi_full, mean0_matrices by (apply seq_nonempty; lia).
  rewrite length_seq, INR_2000. reflexivity.
Qed.

(** *** The importance weights *)

Lemma Rsum_exp_pos (l : list R) : l <> [] -> 0 < Rsum (map exp l).
Proof.
  intros Hl. destruct l as [|x l]; [congruence|]. clear Hl. simpl.
  assert (H : 0 <= Rsum (map exp l)).
  { induction l as [|y l IH]; simpl; [lra|]. pose proof (exp_pos y). lra. }
  pose proof (exp_pos x). lra.
Qed.

Lemma Rsum_map_div {A} (f : A -> R) (c : R) (l : list A) :
  Rsum (map (fun a => f a / c) l) = Rsum (map f l) / c.
Proof.
  induction l as [|a l IH]; simpl; [unfold Rdiv; ring|].
  rewrite IH. unfold Rdiv. ring.
Qed.

Lemma exp_minus_logsumexp (x : R) (l : list R) :
  l <> [] -> exp (x - logsumexp l) = exp x / Rsum (map exp l).
Proof.
  intros Hl. unfold logsumexp, Rminus.
  rewrite exp_plus, exp_Ropp, exp_ln by (apply Rsum_exp_pos, Hl).
  reflexivity.
Qed.

(** The weights of lines 109-111 and 118-120 add up to 1. *)
Lemma Rsum_norm_probs (log_prob : tensor 1 -> R) (samples : tensor 2) :
  samples <> [] -> Rsum (norm_probs log_prob samples) = 1.
Proof.
  intros Hs. unfold norm_probs. change (tmap 1 exp) with (map exp).
  assert (Hl : map log_prob samples <> []) by (destruct samples; [now elim Hs|discriminate]).
  rewrite map_map.
  rewrite (map_ext _ (fun l => exp l / Rsum (map exp (map log_prob samples))))
    by (intros x; apply exp_minus_logsumexp, Hl).
  rewrite Rsum_map_div.
  pose proof (Rsum_exp_pos _ Hl). unfold Rdiv. apply Rinv_r. lra.
Qed.

(** The normalized weight of the [s]-th of the 1000 samples. *)
Definition importance_weight (omega : nat -> tensor 1) (log_prob : tensor 1 -> R)
    (s : nat) : R :=
  exp (log_prob (omega s)
       - logsumexp (map log_prob (rsample omega 1000))).

Lemma norm_probs_map {I} (om : I -> tensor 1) log_prob (ss : list I) :
  norm_probs log_prob (map om ss)
  = map (fun s => exp (log_prob (om s) - logsumexp (map log_prob (map om ss)))) ss.
Proof.
  unfold norm_probs. change (tmap 1 exp) with (map exp).
  rewrite !map_map. reflexivity.
Qed.

Lemma norm_probs_rsample omega log_prob :
  norm_probs log_prob (rsample omega 1000)
  = map (importance_weight omega log_prob) (seq 0 1000).
Proof. unfold rsample. apply norm_probs_map. Qed.

Lemma view_1000_1_rsample omega log_prob :
  view_1000_1 (norm_probs log_prob (rsample omega 1000))
  = Some (map (fun s => [importance_weight omega log_prob s]) (seq 0 1000)).
Proof.
  rewrite norm_probs_rsample. unfold view_1000_1.
  rewrite length_map, length_seq, Nat.eqb_refl, map_map. reflexivity.
Qed.

Lemma view_1000_1_1_rsample omega log_prob :
  view_1000_1_1 (norm_probs log_prob (rsample omega 1000))
  = Some (map (fun s => [[importance_weight omega log_prob s]]) (seq 0 1000)).
Proof.
  rewrite norm_probs_rsample. unfold view_1000_1_1.
  rewrite length_map, length_seq, Nat.eqb_refl, map_map. reflexivity.
Qed.

(** [c.mul(norm_probs)] with [norm_probs] of shape [S x 1] or [S x 1 x 1]. *)
Lemma values_diag {I A} (F : I -> A -> R) (w : I -> R) (ss : list I) (ds : list A) :
  tmul 2 (map (fun s => map (F s) ds) ss) (map (fun s => [w s]) ss)
  = Some (map (fun s => map (fun d => F s d * w s) ds) ss).
Proof.
  unfold tmul. simpl.
  rewrite broadcast_axis_same_length by (rewrite !length_map; reflexivity).
  rewrite (zipM_total _ (fun crow wrow => map (fun c => c * nth 0 wrow 0) crow)).
  - rewrite zip_with_map_same. f_equal. apply map_ext. intros s.
    rewrite map_map. reflexivity.
  - rewrite !length_map. reflexivity.
  - intros crow wrow _ Hw.
    apply list_elem_of_In, in_map_iff in Hw as (s & <- & _).
    rewrite broadcast_axis_singleton_r. apply mapM_total. reflexivity.
Qed.

Lemma values_full {I A B} (F : I -> A -> B -> R) (w : I -> R) (ss : list I)
    (xs : list A) (ys : list B) :
  tmul 3 (map (fun s => map (fun x => map (F s x) ys) xs) ss)
         (map (fun s => [[w s]]) ss)
  = Some (map (fun s => map (fun x => map (fun y => F s x y * w s) ys) xs) ss).
Proof.
  unfold tmul. simpl.
  rewrite broadcast_axis_same_length by (rewrite !length_map; reflexivity).
  rewrite (zipM_total _ (fun cmat wmat =>
             map (map (fun c => c * nth 0 (nth 0 wmat []) 0)) cmat)).
  - rewrite zip_with_map_same. f_equal. apply map_ext. intros s.
    rewrite map_map. apply map_ext. intros x. rewrite map_map. reflexivity.
  - rewrite !length_map. reflexivity.
  - intros cmat wmat _ Hw.
    apply list_elem_of_In, in_map_iff in Hw as (s & <- & _).
    rewrite broadcast_axis_singleton_r. apply mapM_total. intros crow _.
    rewrite broadcast_axis_singleton_r. apply mapM_total. reflexivity.
Qed.

(** The importance-weighted kernel on paired points ([diag=True]). *)
Lemma trapezoidal_diag_closed l om logp n D (x1 x2 : tensor 2) :
  rect n D x1 -> rect n D x2 -> (forall s, length (om s) = D) ->
  trapezoidal_forward l om logp x1 x2 true
  = Some (map (fun p =>
            Rsum (map (fun s => cos_term l (om s) p.1 p.2 * importance_weight om logp s)
                      (seq 0 1000)) / 1000)
          (zip x1 x2)).
Proof.
  intros H1 H2 Hom. unfold trapezoidal_forward. cbn [_create_input_grid].
  rewrite (tsub_diag_closed l n D) by assumption. cbn [mbind option_bind].
  rewrite view_1000_1_rsample. cbn [mbind option_bind]. unfold rsample.
  generalize (importance_weight om logp).
  generalize (length_seq 1000 0). generalize (seq 0 1000) as ss.
  intros ss Hlen w.
  etransitivity;
    [exact (bind_of_fmap (sum_last 2) _ _
             (fun t => tmul 2 (cos_2pi 2 t) (map (fun s => [w s]) ss)
                       ≫= fun values => mean0 1 values)
             (diffs_times_Z_diag D _ _ (samples_length om D ss Hom)
                (rect_scaled_diff_diag l n D x1 x2 H1 H2)))|].
  rewrite cos_2pi_diag, values_diag. cbn [mbind option_bind].
  rewrite mean0_vectors by (intros E; rewrite E in Hlen; discriminate Hlen).
  rewrite Hlen, INR_1000. reflexivity.
Qed.

(** The importance-weighted kernel on all pairs ([diag=False]). *)
Lemma trapezoidal_full_closed l om logp n m D (x1 x2 : tensor 2) :
  rect n D x1 -> rect m D x2 -> (forall s, length (om s) = D) ->
  trapezoidal_forward l om logp x1 x2 false
  = Some (map (fun r1 => map (fun r2 =>
            Rsum (map (fun s => cos_term l (om s) r1 r2 * importance_weight om logp s)
                      (seq 0 1000)) / 1000) x2) x1).
Proof.
  intros H1 H2 Hom. unfold trapezoidal_forward. cbn [_create_input_grid].
  rewrite (tsub_full_closed l n m D) by assumption. cbn [mbind option_bind].
  rewrite view_1000_1_1_rsample. cbn [mbind option_bind]. unfold rsample.
  generalize (importance_weight om logp).
  generalize (length_seq 1000 0). generalize (seq 0 1000) as ss.
  intros ss Hlen w.
  etransitivity;
    [exact (bind_of_fmap (sum_last 3) _ _
             (fun t => tmul 3 (cos_2pi 3 t) (map (fun s => [[w s]]) ss)
                       ≫= fun values => mean0 2 values)
             (diffs_times_Z_full D _ _ (samples_length om D ss Hom)
                (rect_scaled_diff_full l n m D x1 x2 H1 H2)))|].
  rewrite cos_2pi_full, values_full. cbn [mbind option_bind].
  rewrite mean0_matrices by (intros E; rewrite E in Hlen; discriminate Hlen).
  rewrite Hlen, INR_1000. reflexivity.
Qed.

(** *** Properties of the kernels *)

Lemma rect_origin : rect 1 1 [[0]].
Proof. split; [reflexivity|]. repeat constructor. Qed.

(** C8. In the importance-weighted kernel the normalized weights
    [exp(log_probs - logsumexp(log_probs))] of the 1000 samples add up to 1
    along the sample axis; [view(1000, 1)] and [view(1000, 1, 1)] give each
    sample one weight, which broadcasting repeats at every pair position,
    in [diag] and in full mode. *)
Theorem norm_probs_sum_to_one (omega : nat -> tensor 1) (log_prob : tensor 1 -> R)
    (w : tensor 1) :
  w = norm_probs log_prob (rsample omega 1000) ->
  Rsum w = 1
  /\ view_1000_1 w = Some (map (fun a => [a]) w)
  /\ view_1000_1_1 w = Some (map (fun a => [[a]]) w)
  /\ (forall (C : nat -> nat -> R) (n : nat),
        exists V, tmul 2 (map (fun s => map (C s) (seq 0 n)) (seq 0 1000))
                         (map (fun a => [a]) w) = Some V
          /\ V = map (fun s => map (fun i => C s i * nth s w 0) (seq 0 n)) (seq 0 1000))
  /\ (forall (C : nat -> nat -> nat -> R) (n m : nat),
        exists V, tmul 3 (map (fun s => map (fun i => map (C s i) (seq 0 m)) (seq 0 n))
                              (seq 0 1000))
                         (map (fun a => [[a]]) w) = Some V
          /\ V = map (fun s => map (fun i => map (fun j => C s i j * nth s w 0)
                                                 (seq 0 m)) (seq 0 n)) (seq 0 1000)).
Proof.
  intros ->.
  assert (Hnth : forall s, In s (seq 0 1000) ->
            importance_weight omega log_prob s
            = nth s (norm_probs log_prob (rsample omega 1000)) 0).
  { intros s Hs. rewrite norm_probs_rsample. apply in_seq in Hs.
    rewrite (nth_indep _ 0 (importance_weight omega log_prob 0))
      by (rewrite length_map, length_seq; lia).
    rewrite (map_nth (importance_weight omega log_prob)), seq_nth by lia.
    reflexivity. }
  split; [|split; [|split; [|split]]].
  - apply Rsum_norm_probs. unfold rsample. apply not_eq_sym.
    intros H. apply (f_equal (@length _)) in H.
    rewrite length_map, length_seq in H. discriminate H.
  - rewrite view_1000_1_rsample, norm_probs_rsample, map_map. reflexivity.
  - rewrite view_1000_1_1_rsample, norm_probs_rsample, map_map. reflexivity.
  - intros C n. eexists. split.
    + rewrite norm_probs_rsample, map_map. apply values_diag.
    + apply map_ext_in. intros s Hs. apply map_ext. intros i. f_equal.
      apply Hnth, Hs.
  - intros C n m. eexists. split.
    + rewrite norm_probs_rsample, map_map.
      apply (values_full (fun s i j => C s i j)).
    + apply map_ext_in. intros s Hs. apply map_ext. intros i.
      apply map_ext. intros j. f_equal. apply Hnth, Hs.
Qed.

Lemma norm_probs_sum_to_one_witness :
  Rsum (norm_probs (fun _ => 0) (rsample (fun _ => [0]) 1000)) = 1.
Proof.
  exact (proj1 (norm_probs_sum_to_one (fun _ => [0]) (fun _ => 0) _ eq_refl)).
Defined.

(** The estimate as the specification words it: the cosine terms of the
    1000 samples weighted by the normalized weights and added up, with no
    further division by the number of samples. *)
Definition self_normalized_estimate (lengthscale : R) (omega : nat -> tensor 1)
    (log_prob : tensor 1 -> R) (r1 r2 : tensor 1) : R :=
  Rsum (map (fun s => cos_term lengthscale (omega s) r1 r2
                      * importance_weight omega log_prob s) (seq 0 1000)).

Lemma Rsum_map_scale {A} (c : R) (w : A -> R) (l : list A) :
  Rsum (map (fun a => c * w a) l) = c * Rsum (map w l).
Proof. induction l as [|a l IH]; simpl; [ring|]. rewrite IH. ring. Qed.

Lemma Rsum_importance_weights omega log_prob :
  Rsum (map (importance_weight omega log_prob) (seq 0 1000)) = 1.
Proof.
  rewrite <- norm_probs_rsample. apply Rsum_norm_probs.
  unfold rsample. intros H. apply (f_equal (@length _)) in H.
  rewrite length_map, length_seq in H. discriminate H.
Qed.

Lemma cos_term_origin : cos_term 1 [0] [0] [0] = 1.
Proof.
  unfold cos_term, dot, scaled_diff. simpl.
  replace ((0 * (0 / 1 - 0 / 1) + 0) * (2 * PI)) with 0 by (unfold Rdiv; ring).
  apply cos_0.
Qed.

(** C1. What the importance-weighted kernel
    [TrapezoidalSpectralAutoregressiveFlowKernel.forward] computes: it
    draws 1000 frequency samples, weights the cosine term of each sample by
    [exp(log_prob - logsumexp(log_probs))], and then takes the [mean] over
    the sample axis.  Every entry is therefore the self-normalized
    estimate (the weighted sum of the cosine terms) divided once more by
    1000, in [diag] and in full mode, where the plain kernel has the
    uniform average alone. *)
Theorem trapezoidal_forward_is_weighted_mean
    (lengthscale : R) (omega : nat -> tensor 1) (log_prob : tensor 1 -> R)
    (n m D : nat) (x1 x2 : tensor 2) (diag : bool) :
  rect n D x1 -> rect (if diag then n else m) D x2 ->
  (forall s, length (omega s) = D) ->
  trapezoidal_forward lengthscale omega log_prob x1 x2 diag
  = Some (match diag return tensor (out_rank diag) with
          | true =>
              map (fun p => self_normalized_estimate lengthscale omega log_prob p.1 p.2 / 1000)
                  (zip x1 x2)
          | false =>
              map (fun r1 => map (fun r2 =>
                self_normalized_estimate lengthscale omega log_prob r1 r2 / 1000) x2) x1
          end).
Proof.
  intros H1 H2 Hom. destruct diag.
  - apply (trapezoidal_diag_closed _ _ _ n D); assumption.
  - apply (trapezoidal_full_closed _ _ _ n m D); assumption.
Qed.

Lemma trapezoidal_forward_is_weighted_mean_witness :
  trapezoidal_forward 1 (fun _ => [0]) (fun _ => 0) [[0]] [[0]] true
  = Some [self_normalized_estimate 1 (fun _ => [0]) (fun _ => 0) [0] [0] / 1000].
Proof.
  exact (trapezoidal_forward_is_weighted_mean 1 (fun _ => [0]) (fun _ => 0)
           1 1 1 [[0]] [[0]] true rect_origin rect_origin (fun _ => eq_refl)).
Defined.

(** The kernel of a point with itself shows the extra division: for the
    single point 0 paired with itself, unit lengthscale, all samples 0 and
    a constant log-density, the weighted sum of the cosine terms is 1, and
    the kernel returns 1/1000, not 1. *)
Lemma trapezoidal_forward_not_weighted_sum :
  self_normalized_estimate 1 (fun _ => [0]) (fun _ => 0) [0] [0] = 1
  /\ trapezoidal_forward 1 (fun _ => [0]) (fun _ => 0) [[0]] [[0]] true
     = Some [1 / 1000]
  /\ trapezoidal_forward 1 (fun _ => [0]) (fun _ => 0) [[0]] [[0]] true
     <> Some [self_normalized_estimate 1 (fun _ => [0]) (fun _ => 0) [0] [0]].
Proof.
  assert (Hsum : self_normalized_estimate 1 (fun _ => [0]) (fun _ => 0) [0] [0] = 1).
  { unfold self_normalized_estimate. rewrite cos_term_origin, Rsum_map_scale.
    rewrite Rsum_importance_weights. ring. }
  assert (Hfwd : trapezoidal_forward 1 (fun _ => [0]) (fun _ => 0) [[0]] [[0]] true
                 = Some [1 / 1000]).
  { rewrite (trapezoidal_diag_closed 1 _ _ 1 1 [[0]] [[0]] rect_origin rect_origin)
      by reflexivity.
    change (zip [[0]] [[0]]) with [([0], [0])]. cbn [map fst snd].
    fold (self_normalized_estimate 1 (fun _ => [0]) (fun _ => 0) [0] [0]).
    rewrite Hsum. reflexivity. }
  split; [exact Hsum|]. split; [exact Hfwd|].
  rewrite Hfwd, Hsum. intros H. injection H as H. lra.
Qed.

Lemma torch_equal_refl (x : tensor 2) : torch_equal x x = true.
Proof. unfold torch_equal. apply bool_decide_eq_true. reflexivity. Qed.

(** C6 (as amended). In [_create_input_grid] the check [torch.equal(x1, x2)]
    and the reuse of the transformed [x1] belong to the
    [last_dim_is_batch=True] branch, whatever [diag] is: there, for equal
    inputs, [x1] alone is transposed and unsqueezed, the check is made, and
    both sides of the grid come from the transformed [x1].  With
    [last_dim_is_batch=False], which is how [forward] calls the method, no
    check and no transpose is made, and in [diag] mode the two inputs are
    returned as they are. *)
Theorem create_input_grid_equal_check (x1 x2 : tensor 2) :
  _create_input_grid x1 x1 true true
    = (unsqueeze_m1_r2 (transpose_r2 x1), unsqueeze_m1_r2 (transpose_r2 x1),
       [call_transpose X1; call_unsqueeze X1 (-1); call_equal])
  /\ _create_input_grid x1 x1 false true
    = (unsqueeze_m2_r3 (unsqueeze_m1_r2 (transpose_r2 x1)),
       unsqueeze_m3_r3 (unsqueeze_m1_r2 (transpose_r2 x1)),
       [call_transpose X1; call_unsqueeze X1 (-1); call_equal;
        call_unsqueeze X1 (-2); call_unsqueeze X2 (-3)])
  /\ _create_input_grid x1 x2 true false = (x1, x2, [])
  /\ _create_input_grid x1 x2 false false
    = (unsqueeze_m2_r2 x1, unsqueeze_m3_r2 x2,
       [call_unsqueeze X1 (-2); call_unsqueeze X2 (-3)]).
Proof.
  unfold _create_input_grid. rewrite torch_equal_refl. repeat split.
Qed.

(** C6 as stated fails: a [diag] evaluation of the kernel builds its grid
    from the rescaled inputs with [last_dim_is_batch=False], and for the
    equal inputs [[[0]]] and [[[0]]] (unit lengthscale) the method then
    makes no [torch.equal] check (it makes no torch call at all). *)
Lemma create_input_grid_diag_no_check :
  ~ In call_equal
      (snd (_create_input_grid (div_lengthscale 1 [[0]]) (div_lengthscale 1 [[0]])
                               true false))
  /\ snd (_create_input_grid (div_lengthscale 1 [[0]]) (div_lengthscale 1 [[0]])
                             true false) = [].
Proof. split; [intros []|reflexivity]. Qed.


(** *** Further properties of the plain kernel *)

Lemma nth_map_lt {A B} (f : A -> B) (l : list A) (i : nat) (d : A) (d' : B) :
  (i < length l)%nat -> nth i (map f l) d' = f (nth i l d).
Proof.
  intros H. rewrite (nth_indep _ d' (f d)) by (rewrite length_map; exact H).
  apply map_nth.
Qed.

Lemma nth_zip_lt {A B} (l1 : list A) (l2 : list B) (i : nat) d1 d2 d :
  (i < length l1)%nat -> (i < length l2)%nat ->
  nth i (zip l1 l2) d = (nth i l1 d1, nth i l2 d2).
Proof.
  revert l2 i. induction l1 as [|a l1 IH]; intros [|b l2] [|i]; simpl;
    intros H1 H2; try lia; [reflexivity|]. apply IH; lia.
Qed.

Lemma zip_with_Rminus_swap (a b : list R) :
  zip_with Rminus b a = map Ropp (zip_with Rminus a b).
Proof.
  revert b. induction a as [|x a IH]; intros [|y b]; simpl; try reflexivity.
  rewrite IH. f_equal. ring.
Qed.

Lemma dot_opp (z d : tensor 1) : dot z (map Ropp d) = - dot z d.
Proof.
  unfold dot. revert d. induction z as [|x z IH]; intros [|y d]; simpl;
    try ring. rewrite IH. ring.
Qed.

(** The term of a sample is even in the difference of the two points. *)
Lemma cos_term_sym l (z r1 r2 : tensor 1) : cos_term l z r1 r2 = cos_term l z r2 r1.
Proof.
  unfold cos_term, scaled_diff.
  rewrite (zip_with_Rminus_swap (map (fun v => v / l) r2) (map (fun v => v / l) r1)).
  rewrite dot_opp.
  replace (- dot z (zip_with Rminus (map (fun v => v / l) r2) (map (fun v => v / l) r1))
           * (2 * PI))
    with (- (dot z (zip_with Rminus (map (fun v => v / l) r2) (map (fun v => v / l) r1))
             * (2 * PI))) by ring.
  apply cos_neg.
Qed.

(** X1. With the samples of one evaluation, the full covariance of
    [(x2, x1)] is the transpose of that of [(x1, x2)]; for [x1 = x2] the
    covariance matrix is symmetric. *)
Theorem forward_full_symmetric
    (lengthscale : R) (training : bool) (omega : nat -> tensor 1)
    (n m D : nat) (x1 x2 : tensor 2) :
  rect n D x1 -> rect m D x2 -> (forall s, length (omega s) = D) ->
  exists K K' : tensor 2,
    forward lengthscale training omega x1 x2 false = Some K
    /\ forward lengthscale training omega x2 x1 false = Some K'
    /\ forall i j, (i < n)%nat -> (j < m)%nat ->
         nth j (nth i K []) 0 = nth i (nth j K' []) 0.
Proof.
  intros H1 H2 Hom.
  rewrite (forward_full_closed _ _ _ n m D) by assumption.
  rewrite (forward_full_closed _ _ _ m n D) by assumption.
  eexists. eexists. split; [reflexivity|]. split; [reflexivity|].
  intros i j Hi Hj. destruct H1 as [Hn1 _]. destruct H2 as [Hn2 _].
  rewrite (nth_map_lt _ x1 i []) by lia.
  rewrite (nth_map_lt _ x2 j []) by lia.
  rewrite (nth_map_lt _ x2 j []) by lia.
  rewrite (nth_map_lt _ x1 i []) by lia.
  f_equal. f_equal. apply map_ext. intros s. apply cos_term_sym.
Qed.

Lemma rect_two_points : rect 2 1 [[0]; [1]].
Proof. split; [reflexivity|]. repeat constructor. Qed.

Lemma forward_full_symmetric_witness :
  exists K K' : tensor 2,
    forward 1 false (fun _ => [0]) [[0]; [1]] [[0]; [1]] false = Some K
    /\ forward 1 false (fun _ => [0]) [[0]; [1]] [[0]; [1]] false = Some K'
    /\ forall i j, (i < 2)%nat -> (j < 2)%nat ->
         nth j (nth i K []) 0 = nth i (nth j K' []) 0.
Proof.
  exact (forward_full_symmetric 1 false (fun _ => [0]) 2 2 1 [[0]; [1]] [[0]; [1]]
           rect_two_points rect_two_points (fun _ => eq_refl)).
Defined.

(** X2. With the samples of one evaluation, the [diag] result for [n]
    paired points is the diagonal of the full result for the same two
    point sets. *)
Theorem forward_diag_is_diagonal
    (lengthscale : R) (training : bool) (omega : nat -> tensor 1)
    (n D : nat) (x1 x2 : tensor 2) :
  rect n D x1 -> rect n D x2 -> (forall s, length (omega s) = D) ->
  exists (Kd : tensor 1) (Kf : tensor 2),
    forward lengthscale training omega x1 x2 true = Some Kd
    /\ forward lengthscale training omega x1 x2 false = Some Kf
    /\ length Kd = n
    /\ forall i, (i < n)%nat -> nth i Kd 0 = nth i (nth i Kf []) 0.
Proof.
  intros H1 H2 Hom.
  rewrite (forward_diag_closed _ _ _ n D) by assumption.
  rewrite (forward_full_closed _ _ _ n n D) by assumption.
  eexists. eexists. split; [reflexivity|]. split; [reflexivity|].
  destruct H1 as [Hn1 _]. destruct H2 as [Hn2 _]. split.
  - rewrite length_map, length_zip_with. lia.
  - intros i Hi.
    rewrite (nth_map_lt _ (zip x1 x2) i ([], []))
      by (rewrite length_zip_with; lia).
    rewrite (nth_zip_lt x1 x2 i [] []) by lia.
    rewrite (nth_map_lt _ x1 i []) by lia.
    rewrite (nth_map_lt _ x2 i []) by lia.
    reflexivity.
Qed.

Lemma forward_diag_is_diagonal_witness :
  exists (Kd : tensor 1) (Kf : tensor 2),
    forward 1 false (fun _ => [0]) [[0]; [1]] [[0]; [1]] true = Some Kd
    /\ forward 1 false (fun _ => [0]) [[0]; [1]] [[0]; [1]] false = Some Kf
    /\ length Kd = 2%nat
    /\ forall i, (i < 2)%nat -> nth i Kd 0 = nth i (nth i Kf []) 0.
Proof.
  exact (forward_diag_is_diagonal 1 false (fun _ => [0]) 2 1 [[0]; [1]] [[0]; [1]]
           rect_two_points rect_two_points (fun _ => eq_refl)).
Defined.


Lemma broadcast_axis_mismatch {A B C} (g : A -> B -> option C) (l1 : list A) (l2 : list B) :
  length l1 <> length l2 -> length l1 <> 1%nat -> length l2 <> 1%nat ->
  broadcast_axis g l1 l2 = None.
Proof.
  intros Hne H1 H2. unfold broadcast_axis.
  apply Nat.eqb_neq in Hne. rewrite Hne.
  destruct l1 as [|a [|a' l1]]; destruct l2 as [|b [|b' l2]]; simpl in *;
    try reflexivity; try (now elim H1); now elim H2.
Qed.

(** X5. In [diag] mode the two point sets are subtracted entry by entry:
    when they hold different numbers of points, neither of them one, the
    subtraction is a shape error and both kernels raise. *)
Theorem forward_diag_size_mismatch
    (lengthscale : R) (training : bool) (omega : nat -> tensor 1)
    (log_prob : tensor 1 -> R) (x1 x2 : tensor 2) :
  length x1 <> length x2 -> length x1 <> 1%nat -> length x2 <> 1%nat ->
  forward lengthscale training omega x1 x2 true = None
  /\ trapezoidal_forward lengthscale omega log_prob x1 x2 true = None.
Proof.
  intros Hne H1 H2.
  assert (Hsub : tsub 2 (div_lengthscale lengthscale x1) (div_lengthscale lengthscale x2)
                 = None).
  { unfold tsub, div_lengthscale, tmap.
    change (tbinop 2 Rminus) with (broadcast_axis (tbinop 1 Rminus)).
    apply broadcast_axis_mismatch; cbn [at_depth]; rewrite ?length_map; assumption. }
  unfold forward, trapezoidal_forward. cbn [_create_input_grid].
  rewrite Hsub. split; reflexivity.
Qed.

Lemma forward_diag_size_mismatch_witness :
  forward 1 false (fun _ => [0]) [[0]; [1]; [2]] [[0]; [1]] true = None
  /\ trapezoidal_forward 1 (fun _ => [0]) (fun _ => 0) [[0]; [1]; [2]] [[0]; [1]] true
     = None.
Proof.
  apply forward_diag_size_mismatch; simpl; lia.
Defined.


Lemma cos_2pi_rows {I} (om : I -> tensor 1) (ss : list I) (diffs : tensor 2) :
  cos_2pi 2 (map (fun z => map (fun d => dot z d) diffs) (map om ss))
  = map (fun s => map (fun d => cos (dot (om s) d * (2 * PI))) diffs) ss.
Proof.
  unfold cos_2pi, tmap. simpl at_depth. rewrite !map_map.
  apply map_ext. intros s. rewrite map_map. reflexivity.
Qed.

(** The plain kernel in [diag] mode, from the differences that the
    broadcast subtraction gives. *)
Lemma forward_diag_of_diffs l tr om D (x1 x2 diffs : tensor 2) :
  tsub 2 (div_lengthscale l x1) (div_lengthscale l x2) = Some diffs ->
  Forall (fun d => length d = D) diffs -> (forall s, length (om s) = D) ->
  forward l tr om x1 x2 true
  = Some (map (fun d => Rsum (map (fun s => cos (dot (om s) d * (2 * PI)))
                                  (seq 0 2000)) / 2000) diffs).
Proof.
  intros Hsub Hd Hom. unfold forward. cbn [_create_input_grid].
  rewrite Hsub. cbn [mbind option_bind].
  assert (HZ : (if tr then rsample om 2000 else rsample om 2000) = map om (seq 0 2000))
    by (destruct tr; reflexivity).
  rewrite HZ.
  etransitivity;
    [exact (bind_of_fmap (sum_last 2) _ _ (fun t => mean0 1 (cos_2pi 2 t))
             (diffs_times_Z_diag D _ _ (samples_length om D (seq 0 2000) Hom) Hd))|].
  rewrite cos_2pi_rows, mean0_vectors by (apply seq_nonempty; lia).
  rewrite length_seq, INR_2000. reflexivity.
Qed.

Lemma Forall_map_P {A B} (P : A -> Prop) (Q : B -> Prop) (f : A -> B) (l : list A) :
  Forall P l -> (forall a, P a -> Q (f a)) -> Forall Q (map f l).
Proof. intros H Hf. induction H; simpl; constructor; auto. Qed.

(** X6. In [diag] mode a single point in [x1] is not rejected: the
    subtraction broadcasts it, and the kernel returns one entry for each
    point of [x2], the covariance of that point with the single one. *)
Theorem forward_diag_broadcasts_single_point
    (lengthscale : R) (training : bool) (omega : nat -> tensor 1)
    (m D : nat) (r1 : tensor 1) (x2 : tensor 2) :
  length r1 = D -> rect m D x2 -> (forall s, length (omega s) = D) ->
  forward lengthscale training omega [r1] x2 true
  = Some (map (fun r2 =>
            Rsum (map (fun s => cos_term lengthscale (omega s) r1 r2) (seq 0 2000))
            / 2000) x2).
Proof.
  intros Hr1 [Hm HD] Hom.
  assert (Hsub : tsub 2 (div_lengthscale lengthscale [r1]) (div_lengthscale lengthscale x2)
                 = Some (map (fun r2 => scaled_diff lengthscale r1 r2) x2)).
  { unfold tsub, div_lengthscale, tmap.
    change (tbinop 2 Rminus) with (broadcast_axis (tbinop 1 Rminus)).
    cbn [at_depth map]. rewrite broadcast_axis_singleton_l, mapM_map.
    apply mapM_total. intros r2 Hr2. apply (tbinop_vec Rminus).
    rewrite !length_map. rewrite Forall_forall in HD.
    transitivity D; [exact Hr1|symmetry; exact (HD r2 Hr2)]. }
  assert (Hd : Forall (fun d => length d = D)
                      (map (fun r2 => scaled_diff lengthscale r1 r2) x2)).
  { apply (Forall_map_P (fun r => length r = D)); [exact HD|].
    intros r2 Hr2. apply length_scaled_diff; assumption. }
  rewrite (forward_diag_of_diffs _ _ _ D _ _ _ Hsub Hd Hom).
  rewrite map_map. reflexivity.
Qed.

Lemma forward_diag_broadcasts_single_point_witness :
  forward 1 false (fun _ => [0]) [[0]] [[0]; [1]] true
  = Some (map (fun r2 =>
            Rsum (map (fun s => cos_term 1 [0] [0] r2) (seq 0 2000)) / 2000)
          [[0]; [1]]).
Proof.
  exact (forward_diag_broadcasts_single_point 1 false (fun _ => [0]) 2 1 [0]
           [[0]; [1]] eq_refl rect_two_points (fun _ => eq_refl)).
Defined.

(** *** Further properties of the importance-weighted kernel *)

Lemma Forall_map_all {A B} (P : B -> Prop) (f : A -> B) (l : list A) :
  (forall a, P (f a)) -> Forall P (map f l).
Proof. intros H. induction l; simpl; constructor; auto. Qed.


(** *** Further properties of [_create_input_grid] and of the constructors *)

(** With [last_dim_is_batch=True] the two sides of the grid are the
    transforms of [x1] and of [x2], whether the check finds them equal or
    not. *)
Lemma create_input_grid_batch_values (x1 x2 : tensor 2) :
  fst (_create_input_grid x1 x2 true true)
  = (unsqueeze_m1_r2 (transpose_r2 x1), unsqueeze_m1_r2 (transpose_r2 x2))
  /\ fst (_create_input_grid x1 x2 false true)
     = (unsqueeze_m2_r3 (unsqueeze_m1_r2 (transpose_r2 x1)),
        unsqueeze_m3_r3 (unsqueeze_m1_r2 (transpose_r2 x2))).
Proof.
  unfold _create_input_grid, torch_equal.
  destruct (bool_decide (x1 = x2)) eqn:Heq.
  - apply bool_decide_eq_true in Heq. subst x2. split; reflexivity.
  - split; reflexivity.
Qed.

(** X9. The equality check of the [last_dim_is_batch=True] branch only
    saves work: the grid holds the transposed and unsqueezed [x1] and [x2]
    whether or not they are equal, one [torch.equal] call is always made,
    and [x2] is transposed exactly when it differs from [x1]. *)
Theorem create_input_grid_check_is_transparent (x1 x2 : tensor 2) (diag : bool) :
  fst (_create_input_grid x1 x2 true true)
  = (unsqueeze_m1_r2 (transpose_r2 x1), unsqueeze_m1_r2 (transpose_r2 x2))
  /\ fst (_create_input_grid x1 x2 false true)
     = (unsqueeze_m2_r3 (unsqueeze_m1_r2 (transpose_r2 x1)),
        unsqueeze_m3_r3 (unsqueeze_m1_r2 (transpose_r2 x2)))
  /\ In call_equal (snd (_create_input_grid x1 x2 diag true))
  /\ (In (call_transpose X2) (snd (_create_input_grid x1 x2 diag true)) <-> x1 <> x2).
Proof.
  destruct (create_input_grid_batch_values x1 x2) as [Hd Hf].
  split; [exact Hd|]. split; [exact Hf|].
  unfold _create_input_grid, torch_equal.
  destruct (bool_decide (x1 = x2)) eqn:Heq.
  - apply bool_decide_eq_true in Heq.
    destruct diag; simpl; (split; [tauto|]); split; try tauto;
      intros H; repeat (destruct H as [H|H]; try discriminate H); contradiction.
  - apply bool_decide_eq_false in Heq.
    destruct diag; simpl; (split; [tauto|]); split; tauto.
Qed.

(** A tensor has the sizes [dims], outermost axis first. *)
Fixpoint has_shape (k : nat) (dims : list nat) : tensor k -> Prop :=
  match k return tensor k -> Prop with
  | O => fun _ => dims = []
  | S k' => fun t =>
      match dims with
      | [] => False
      | n :: ds => length t = n /\ Forall (has_shape k' ds) t
      end
  end.

Lemma has_shape_vector (D : nat) (r : tensor 1) : length r = D -> has_shape 1 [D] r.
Proof.
  intros H. split; [exact H|]. clear H. induction r; constructor; auto.
  reflexivity.
Qed.

Lemma has_shape_rect n D (x : tensor 2) : rect n D x -> has_shape 2 [n; D] x.
Proof.
  intros [Hn HD]. split; [exact Hn|].
  eapply Forall_impl; [exact HD|]. intros r. apply has_shape_vector.
Qed.

Lemma rect_transpose n D (x : tensor 2) :
  (1 <= n)%nat -> rect n D x -> rect D n (transpose_r2 x).
Proof.
  intros Hpos [Hn HD]. unfold transpose_r2.
  destruct x as [|row x]; [simpl in Hn; lia|].
  inversion HD as [|? ? Hrow _]; subst. split.
  - rewrite length_map, length_seq. reflexivity.
  - apply Forall_map_all. intros j. rewrite length_map. reflexivity.
Qed.

Lemma has_shape_unsqueeze_m1_r2 a b (x : tensor 2) :
  rect a b x -> has_shape 3 [a; b; 1%nat] (unsqueeze_m1_r2 x).
Proof.
  intros [Ha Hb]. unfold unsqueeze_m1_r2. simpl. rewrite length_map.
  split; [exact Ha|]. apply (Forall_map_P (fun r => length r = b)); [exact Hb|].
  intros r Hr. rewrite length_map. split; [exact Hr|].
  apply Forall_map_all. intros v. apply (has_shape_vector 1 [v]). reflexivity.
Qed.

Lemma has_shape_unsqueeze_m2_r2 a b (x : tensor 2) :
  rect a b x -> has_shape 3 [a; 1%nat; b] (unsqueeze_m2_r2 x).
Proof.
  intros [Ha Hb]. unfold unsqueeze_m2_r2. simpl. rewrite length_map.
  split; [exact Ha|]. apply (Forall_map_P (fun r => length r = b)); [exact Hb|].
  intros r Hr. apply (has_shape_rect 1 b [r]). split; [reflexivity|].
  constructor; [exact Hr|constructor].
Qed.

Lemma has_shape_unsqueeze_m3_r2 a b (x : tensor 2) :
  rect a b x -> has_shape 3 [1%nat; a; b] (unsqueeze_m3_r2 x).
Proof.
  intros H. unfold unsqueeze_m3_r2. split; [reflexivity|].
  constructor; [apply has_shape_rect, H|constructor].
Qed.

Lemma has_shape_unsqueeze_m2_r3 a b c (t : tensor 3) :
  has_shape 3 [a; b; c] t -> has_shape 4 [a; b; 1%nat; c] (unsqueeze_m2_r3 t).
Proof.
  intros [Ha Hb]. unfold unsqueeze_m2_r3. simpl. rewrite length_map.
  split; [exact Ha|].
  apply (Forall_map_P (has_shape 2 [b; c])); [exact Hb|].
  intros m [Hm Hrows]. rewrite length_map. split; [exact Hm|].
  apply (Forall_map_P (has_shape 1 [c])); [exact Hrows|].
  intros r Hr. split; [reflexivity|]. constructor; [exact Hr|constructor].
Qed.

Lemma has_shape_unsqueeze_m3_r3 a b c (t : tensor 3) :
  has_shape 3 [a; b; c] t -> has_shape 4 [a; 1%nat; b; c] (unsqueeze_m3_r3 t).
Proof.
  intros [Ha Hb]. unfold unsqueeze_m3_r3. simpl. rewrite length_map.
  split; [exact Ha|].
  apply (Forall_map_P (has_shape 2 [b; c])); [exact Hb|].
  intros m Hm. split; [reflexivity|]. constructor; [exact Hm|constructor].
Qed.

(** X10. The grid has the shapes that the docstring of [_create_input_grid]
    lists: [n x d] and [m x d] in [diag] mode, [n x 1 x d] and [1 x m x d]
    in full mode, and with [last_dim_is_batch=True] (for non-empty point
    sets) [d x n x 1] and [d x m x 1], or [d x n x 1 x 1] and
    [d x 1 x m x 1]. *)
Theorem create_input_grid_shapes (n m d : nat) (x1 x2 : tensor 2) :
  rect n d x1 -> rect m d x2 ->
  (has_shape 2 [n; d] (fst (fst (_create_input_grid x1 x2 true false)))
   /\ has_shape 2 [m; d] (snd (fst (_create_input_grid x1 x2 true false))))
  /\ (has_shape 3 [n; 1%nat; d] (fst (fst (_create_input_grid x1 x2 false false)))
      /\ has_shape 3 [1%nat; m; d] (snd (fst (_create_input_grid x1 x2 false false))))
  /\ ((1 <= n)%nat -> (1 <= m)%nat ->
      (has_shape 3 [d; n; 1%nat] (fst (fst (_create_input_grid x1 x2 true true)))
       /\ has_shape 3 [d; m; 1%nat] (snd (fst (_create_input_grid x1 x2 true true))))
      /\ (has_shape 4 [d; n; 1%nat; 1%nat]
            (fst (fst (_create_input_grid x1 x2 false true)))
          /\ has_shape 4 [d; 1%nat; m; 1%nat]
               (snd (fst (_create_input_grid x1 x2 false true))))).
Proof.
  intros H1 H2. split; [|split].
  - split; apply has_shape_rect; assumption.
  - split; [apply has_shape_unsqueeze_m2_r2|apply has_shape_unsqueeze_m3_r2]; assumption.
  - intros Hn Hm. destruct (create_input_grid_batch_values x1 x2) as [-> ->].
    cbn [fst snd].
    pose proof (has_shape_unsqueeze_m1_r2 _ _ _ (rect_transpose _ _ _ Hn H1)) as S1.
    pose proof (has_shape_unsqueeze_m1_r2 _ _ _ (rect_transpose _ _ _ Hm H2)) as S2.
    split; [split; assumption|].
    split; [apply has_shape_unsqueeze_m2_r3|apply has_shape_unsqueeze_m3_r3]; assumption.
Qed.

Lemma create_input_grid_shapes_witness :
  has_shape 3 [1%nat; 2%nat; 1%nat]
    (fst (fst (_create_input_grid [[0]; [1]] [[0]; [1]] true true)))
  /\ has_shape 4 [1%nat; 1%nat; 2%nat; 1%nat]
       (snd (fst (_create_input_grid [[0]; [1]] [[0]; [1]] false true))).
Proof.
  destruct (create_input_grid_shapes 2 2 1 [[0]; [1]] [[0]; [1]]
              rect_two_points rect_two_points) as (_ & _ & H).
  destruct H as [[H1 _] [_ H2]]; [lia|lia|]. split; assumption.
Defined.

Lemma result_mapM_const_Ok {A B} (b : B) (l : list A) :
  result_mapM (fun _ => Ok b) l = Ok (repeat b (length l)).
Proof. induction l as [|a l IH]; simpl; [reflexivity|]. rewrite IH. reflexivity. Qed.

Lemma result_mapM_const_Raise {A B} (e : exn) (l : list A) :
  l <> [] -> result_mapM (fun _ => @Raise B e) l = Raise e.
Proof. destruct l; [congruence|reflexivity]. Qed.

(** X11. With an integer [stack_size], once the base class initializer has
    returned, [SpectralAutoregressiveFlowKernel.__init__] builds a
    [ModuleList] of [stack_size] flows when [stack_size > 1] and one single
    flow otherwise (for 1, 0 and negative values alike); an exception from
    [BlockAutoregressive] is passed on. *)
Theorem init_builds_stack
    (kwargs kernel_base flow : Type)
    (Kernel__init__ : kwargs -> result kernel_base)
    (BlockAutoregressive : nat -> kwargs -> result flow)
    (num_dims : nat) (stack_size : Z) (kw : kwargs) (base : kernel_base) :
  Kernel__init__ kw = Ok base ->
  SpectralAutoregressiveFlowKernel__init__ kwargs kernel_base flow
    Kernel__init__ BlockAutoregressive num_dims (PyInt stack_size) kw
  = match BlockAutoregressive num_dims kw with
    | Ok f =>
        Ok {| kernel_super := base;
              kernel_dsf := if (stack_size >? 1)%Z
                            then ModuleList flow (repeat f (Z.to_nat stack_size))
                            else SingleFlow flow f;
              kernel_num_dims := num_dims |}
    | Raise e => Raise e
    end.
Proof.
  intros Hbase. unfold SpectralAutoregressiveFlowKernel__init__.
  rewrite Hbase. cbn [result_bind py_gt_int py_range].
  destruct (stack_size >? 1)%Z eqn:Hgt.
  - cbn [result_bind].
    destruct (BlockAutoregressive num_dims kw) as [f|e].
    + rewrite result_mapM_const_Ok, length_seq. reflexivity.
    + rewrite result_mapM_const_Raise; [reflexivity|].
      intros H. apply (f_equal (@length _)) in H. rewrite length_seq in H.
      simpl in H. lia.
  - destruct (BlockAutoregressive num_dims kw) as [f|e]; reflexivity.
Qed.

Lemma init_builds_stack_witness :
  SpectralAutoregressiveFlowKernel__init__ unit unit nat
    (fun _ => Ok tt) (fun n _ => Ok n) 3 (PyInt 2) tt
  = Ok {| kernel_super := tt; kernel_dsf := ModuleList nat [3%nat; 3%nat];
          kernel_num_dims := 3 |}.
Proof.
  exact (init_builds_stack unit unit nat (fun _ => Ok tt) (fun n _ => Ok n)
           3 2 tt tt eq_refl).
Defined.

End Kernel.

(** ** The plain kernel in floating point

    The tensors of the kernel hold IEEE 754 numbers.  This module follows
    [SpectralAutoregressiveFlowKernel.forward] with the special values of
    that arithmetic: a division by zero gives an infinity or NaN, a result
    that is too large for the format becomes an infinity, the cosine of an
    infinity is NaN, and NaN spreads through every operation.  The format
    itself stays a parameter: [rnd] rounds an exact result into it. *)

Module KernelIEEE.

Local Open Scope R_scope.

(** *** Floating-point numbers

    A number is finite, an infinity with its sign, or NaN.  A zero carries
    no sign here: the sign of a zero shows only in the sign of the infinity
    that a division by it gives, which is taken as for [+0]. *)
Inductive fl : Type :=
| Fin (r : R)
| Inf (negative : bool)
| NaN.

Abbreviation tensor := (Kernel.nest fl).

#[local] Instance R_eq_dec : EqDecision R := Req_dec_T.
#[local] Instance R_lt_dec (a b : R) : Decision (a < b) := Rlt_dec a b.

Definition is_negative (r : R) : bool := bool_decide (r < 0).

Definition is_finite (a : fl) : Prop :=
  match a with Fin _ => True | _ => False end.

(** The order of the numbers; NaN is not ordered. *)
Definition fle (a b : fl) : Prop :=
  match a, b with
  | Fin x, Fin y => x <= y
  | Inf true, Fin _ | Fin _, Inf false => True
  | Inf true, Inf _ | Inf false, Inf false => True
  | _, _ => False
  end.

(** What the development asks of the format: rounding keeps the order (so
    it never gives NaN), and the integers up to [2^11] are numbers of the
    format, as they are in half, single and double precision. *)
Record format (rnd : R -> fl) : Prop := {
  rnd_monotone : forall a b, a <= b -> fle (rnd a) (rnd b);
  rnd_integer : forall z : Z, (-2048 <= z <= 2048)%Z -> rnd (IZR z) = Fin (IZR z)
}.

(** A number of [[-1, 1]]; an infinity and NaN are not. *)
Definition unit_interval (v : fl) : Prop :=
  match v with
  | Fin r => -1 <= r <= 1
  | Inf _ | NaN => False
  end.

(** A number of [[-1, 1]], or NaN. *)
Definition unit_interval_or_nan (v : fl) : Prop := v = NaN \/ unit_interval v.

(** A finite number of magnitude at most [n], or, when [nan_ok], NaN. *)
Definition bounded (nan_ok : bool) (n : nat) (v : fl) : Prop :=
  match v with
  | Fin r => - INR n <= r <= INR n
  | Inf _ => False
  | NaN => nan_ok = true
  end.

Section Arithmetic.

(** [rnd r] is the number of the tensors' dtype that the exact result [r]
    is rounded to, an infinity when [r] is too large for the format;
    [cos_lib x] is what the library's cosine returns at the finite number
    [x]; [two_pi] is the Python constant [2 * math.pi] in the dtype. *)
Variable rnd : R -> fl.
Variable cos_lib : R -> R.
Variable two_pi : R.

Definition fadd (a b : fl) : fl :=
  match a, b with
  | NaN, _ | _, NaN => NaN
  | Fin x, Fin y => rnd (x + y)
  | Inf s, Fin _ | Fin _, Inf s => Inf s
  | Inf s, Inf t => if Bool.eqb s t then Inf s else NaN
  end.

Definition fsub (a b : fl) : fl :=
  match a, b with
  | NaN, _ | _, NaN => NaN
  | Fin x, Fin y => rnd (x - y)
  | Inf s, Fin _ => Inf s
  | Fin _, Inf s => Inf (negb s)
  | Inf s, Inf t => if Bool.eqb s t then NaN else Inf s
  end.

Definition fmul (a b : fl) : fl :=
  match a, b with
  | NaN, _ | _, NaN => NaN
  | Fin x, Fin y => rnd (x * y)
  | Inf s, Fin y | Fin y, Inf s =>
      if decide (y = 0) then NaN else Inf (xorb s (is_negative y))
  | Inf s, Inf t => Inf (xorb s t)
  end.

Definition fdiv (a b : fl) : fl :=
  match a, b with
  | NaN, _ | _, NaN => NaN
  | Fin x, Fin y =>
      if decide (y = 0)
      then (if decide (x = 0) then NaN else Inf (is_negative x))
      else rnd (x / y)
  | Fin _, Inf _ => Fin 0
  | Inf s, Fin y => Inf (xorb s (is_negative y))
  | Inf _, Inf _ => NaN
  end.

Definition fcos (a : fl) : fl :=
  match a with
  | Fin x => Fin (cos_lib x)
  | Inf _ | NaN => NaN
  end.

(** *** Tensors of floating-point numbers *)

Definition tmap (k : nat) (f : fl -> fl) : tensor k -> tensor k :=
  Kernel.at_depth (A:=fl) (B:=fl) k f.

(** Every entry of a tensor satisfies [P]. *)
Fixpoint tall (k : nat) (P : fl -> Prop) : tensor k -> Prop :=
  match k with
  | O => P
  | S k' => Forall (tall k' P)
  end.

(** A binary operator on two tensors of the same rank, broadcast. *)
Fixpoint tbinop (k : nat) (f : fl -> fl -> fl)
  : tensor k -> tensor k -> option (tensor k) :=
  match k with
  | O => fun a b => Some (f a b)
  | S k' => Kernel.broadcast_axis (tbinop k' f)
  end.

Definition tsub (k : nat) := tbinop k fsub.
Definition tmul (k : nat) := tbinop k fmul.

(** Entrywise sum of two tensors of one shape. *)
Fixpoint tadd (k : nat) : tensor k -> tensor k -> tensor k :=
  match k with
  | O => fadd
  | S k' => zip_with (tadd k')
  end.

(** The sum of the numbers of a list, added up from the left (torch does
    not fix the order in which a reduction adds). *)
Definition fsum (l : list fl) : fl :=
  match l with
  | [] => Fin 0
  | x :: xs => fold_left fadd xs x
  end.

(** [t.sum(-1)] on a tensor of rank [k + 1]. *)
Fixpoint sum_last (k : nat) : tensor (S k) -> tensor k :=
  match k with
  | O => fsum
  | S k' => map (sum_last k')
  end.

(** [t.mean(dim)] over the leading axis: the rows are added up and divided
    by their number.  (Over an empty axis torch yields NaN entries; the
    kernel always has 2000 rows.) *)
Definition mean0 (k : nat) (t : tensor (S k)) : option (tensor k) :=
  match t with
  | [] => None
  | r :: rs =>
      Some (tmap k (fun v => fdiv v (Fin (INR (length t)))) (fold_left (tadd k) rs r))
  end.

(** [t.unsqueeze(-2)], [t.unsqueeze(-3)], ... at the ranks at which
    [forward] uses them. *)
Definition unsqueeze_m2_r2 (t : tensor 2) : tensor 3 := map (fun v => [v]) t.
Definition unsqueeze_m3_r2 (t : tensor 2) : tensor 3 := [t].
Definition unsqueeze_m2_r3 (t : tensor 3) : tensor 4 := map (map (fun v => [v])) t.
Definition unsqueeze_m4_r3 (t : tensor 3) : tensor 4 := [t].

(** [_create_input_grid(x1, x2, diag=diag)] as [forward] calls it, with
    [last_dim_is_batch] at its default [False]: lines 48-52. *)
Definition _create_input_grid (x1 x2 : tensor 2) (diag : bool)
  : tensor (Kernel.grid_rank diag false) * tensor (Kernel.grid_rank diag false) :=
  match diag
    return tensor (Kernel.grid_rank diag false) * tensor (Kernel.grid_rank diag false)
  with
  | true => (x1, x2)
  | false => (unsqueeze_m2_r2 x1, unsqueeze_m3_r2 x2)
  end.

(** *** [SpectralAutoregressiveFlowKernel.forward] *)

(** [self.lengthscale], [self.training], and the frequency vectors that
    [dsf_dist.rsample] draws in this evaluation; any of these numbers may
    be an infinity or NaN. *)
Variable lengthscale : fl.
Variable training : bool.
Variable omega : nat -> tensor 1.

Definition rsample (n : nat) : tensor 2 := map omega (seq 0 n).

(** [x.div(self.lengthscale)] *)
Definition div_lengthscale (x : tensor 2) : tensor 2 :=
  tmap 2 (fun v => fdiv v lengthscale) x.

(** [t.mul(2 * math.pi).cos()] *)
Definition cos_2pi (k : nat) (t : tensor k) : tensor k :=
  tmap k (fun v => fcos (fmul v (Fin two_pi))) t.

Definition forward (x1 x2 : tensor 2) (diag : bool)
  : option (tensor (Kernel.out_rank diag)) :=
  let x1_ := div_lengthscale x1 in
  let x2_ := div_lengthscale x2 in
  let Z := if training then rsample 2000 else rsample 2000 in
  match diag return option (tensor (Kernel.out_rank diag)) with
  | true =>
      let '(x1_, x2_) := _create_input_grid x1_ x2_ true in
      diffs ← tsub 2 x1_ x2_;
      prod ← tmul 3 (unsqueeze_m2_r2 Z) (unsqueeze_m3_r2 diffs);
      let diffs_times_Z := sum_last 2 prod in
      mean0 1 (cos_2pi 2 diffs_times_Z)
  | false =>
      let '(x1_, x2_) := _create_input_grid x1_ x2_ false in
      diffs ← tsub 3 x1_ x2_;
      prod ← tmul 4 (unsqueeze_m2_r3 (unsqueeze_m2_r2 Z)) (unsqueeze_m4_r3 diffs);
      let diffs_times_Z := sum_last 3 prod in
      mean0 2 (cos_2pi 3 diffs_times_Z)
  end.

(** *** One entry of the result *)

(** [x] has [n] rows of [D] entries each. *)
Definition rect (n D : nat) (x : tensor 2) : Prop :=
  length x = n /\ Forall (fun r => length r = D) x.

(** The difference of two points after each is divided by the lengthscale. *)
Definition scaled_diff (r1 r2 : tensor 1) : tensor 1 :=
  zip_with fsub (map (fun v => fdiv v lengthscale) r1)
                (map (fun v => fdiv v lengthscale) r2).

Definition dot (z d : tensor 1) : fl := fsum (zip_with fmul z d).

(** The number whose cosine is taken for the frequency sample [z] and the
    pair of points [(r1, r2)]. *)
Definition cos_argument (z r1 r2 : tensor 1) : fl :=
  fmul (dot z (scaled_diff r1 r2)) (Fin two_pi).

(** The mean of the 2000 cosines for the pair [(r1, r2)]. *)
Definition kernel_entry (r1 r2 : tensor 1) : fl :=
  fdiv (fsum (map (fun s => fcos (cos_argument (omega s) r1 r2)) (seq 0 2000)))
       (Fin 2000).

Lemma bounded_unit_interval v : bounded false 1 v <-> unit_interval v.
Proof.
  destruct v as [r|s|]; simpl; [lra|tauto|].
  split; [discriminate|contradiction].
Qed.

Lemma bounded_unit_interval_or_nan v : bounded true 1 v <-> unit_interval_or_nan v.
Proof.
  unfold unit_interval_or_nan. destruct v as [r|s|]; simpl.
  - split; [intros H; right; lra|intros [H|H]; [discriminate|lra]].
  - split; [contradiction|intros [H|H]; [discriminate|contradiction]].
  - split; auto.
Qed.

Lemma tall_impl k (P Q : fl -> Prop) (t : tensor k) :
  (forall v, P v -> Q v) -> tall k P t -> tall k Q t.
Proof.
  intros HPQ. induction k as [|k IH]; simpl in *; [apply HPQ|].
  intros Ht. induction Ht; constructor; auto.
Qed.

Lemma tall_tmap k (P Q : fl -> Prop) (f : fl -> fl) (t : tensor k) :
  (forall v, P v -> Q (f v)) -> tall k P t -> tall k Q (tmap k f t).
Proof.
  intros Hf. unfold tmap. induction k as [|k IH]; simpl in *; [apply Hf|].
  intros Ht. induction Ht; simpl; constructor; auto.
Qed.

Lemma tall_tmap_any k (Q : fl -> Prop) (f : fl -> fl) (t : tensor k) :
  (forall v, Q (f v)) -> tall k Q (tmap k f t).
Proof.
  intros Hf. unfold tmap. induction k as [|k IH]; simpl in *; [apply Hf|].
  induction t; simpl; constructor; auto.
Qed.

(** From here on the format is one that [format] describes, and the
    library's cosine stays within [[-1, 1]]. *)
Hypothesis Hfmt : format rnd.
Hypothesis Hcos : forall x, -1 <= cos_lib x <= 1.

(** *** Rounding *)

(** Rounding does not leave an interval whose ends are integers of the
    format. *)
Lemma rnd_bounded (n : nat) (r : R) :
  (n <= 2048)%nat -> - INR n <= r <= INR n ->
  exists r', rnd r = Fin r' /\ - INR n <= r' <= INR n.
Proof.
  intros Hn [Hlo Hhi].
  pose proof (rnd_monotone rnd Hfmt _ _ Hlo) as H1.
  pose proof (rnd_monotone rnd Hfmt _ _ Hhi) as H2.
  rewrite INR_IZR_INZ in *. rewrite <- opp_IZR in H1.
  rewrite (rnd_integer rnd Hfmt) in H1 by lia.
  rewrite (rnd_integer rnd Hfmt) in H2 by lia.
  destruct (rnd r) as [r'|[]|]; simpl in H1, H2; try contradiction.
  exists r'. split; [reflexivity|]. rewrite opp_IZR in H1. lra.
Qed.

Lemma rnd_0 : rnd 0 = Fin 0.
Proof. apply (rnd_integer rnd Hfmt 0). lia. Qed.

Lemma rnd_1 : rnd 1 = Fin 1.
Proof. apply (rnd_integer rnd Hfmt 1). lia. Qed.

(** *** Sums and means of bounded numbers *)

Lemma fadd_bounded (b : bool) (n : nat) (x y : fl) :
  (S n <= 2048)%nat -> bounded b n x -> bounded b 1 y ->
  bounded b (S n) (fadd x y).
Proof.
  intros Hn Hx Hy.
  destruct x as [x|s|], y as [y|t|]; simpl in *; try contradiction; auto.
  destruct (rnd_bounded (S n) (x + y) Hn) as (r' & -> & Hr').
  - rewrite S_INR. lra.
  - exact Hr'.
Qed.

Lemma fold_left_fadd_bounded (b : bool) (rs : list fl) (r : fl) (n : nat) :
  (n + length rs <= 2048)%nat -> bounded b n r -> Forall (bounded b 1) rs ->
  bounded b (n + length rs) (fold_left fadd rs r).
Proof.
  intros Hn Hr Hrs. revert r n Hn Hr.
  induction Hrs as [|x rs Hx Hrs IH]; intros r n Hn Hr; simpl in *.
  - replace (n + 0)%nat with n by lia. exact Hr.
  - replace (n + S (length rs))%nat with (S n + length rs)%nat by lia.
    apply IH; [lia|]. apply fadd_bounded; [lia|exact Hr|exact Hx].
Qed.

Lemma fdiv_count_bounded (b : bool) (n : nat) (v : fl) :
  (1 <= n <= 2048)%nat -> bounded b n v -> bounded b 1 (fdiv v (Fin (INR n))).
Proof.
  intros Hn Hv. assert (Hpos : 0 < INR n) by (apply lt_0_INR; lia).
  destruct v as [r|s|]; simpl in *; [|contradiction|exact Hv].
  destruct (decide (INR n = 0)) as [H0|_]; [lra|].
  destruct (rnd_bounded 1 (r / INR n)) as (r' & -> & Hr'); [lia| |exact Hr'].
  simpl. split.
  - apply (Rmult_le_reg_r (INR n)); [exact Hpos|].
    unfold Rdiv. rewrite Rmult_assoc, Rinv_l by lra. lra.
  - apply (Rmult_le_reg_r (INR n)); [exact Hpos|].
    unfold Rdiv. rewrite Rmult_assoc, Rinv_l by lra. lra.
Qed.

(** The mean of at most [2^11] numbers of [[-1, 1]] is a number of
    [[-1, 1]]; with [b = true] some of them may be NaN, and so may the
    mean. *)
Lemma mean_bounded (b : bool) (l : list fl) :
  l <> [] -> (length l <= 2048)%nat -> Forall (bounded b 1) l ->
  bounded b 1 (fdiv (fsum l) (Fin (INR (length l)))).
Proof.
  intros Hne Hlen Hl. destruct l as [|x xs]; [congruence|].
  inversion Hl as [|? ? Hx Hxs]; subst.
  cbn [length] in Hlen.
  apply fdiv_count_bounded; [cbn [length]; lia|].
  change (length (x :: xs)) with (1 + length xs)%nat.
  apply fold_left_fadd_bounded; [lia|exact Hx|exact Hxs].
Qed.

(** *** NaN spreads *)

Lemma fadd_NaN_r (a : fl) : fadd a NaN = NaN.
Proof. destruct a; reflexivity. Qed.

Lemma fold_left_fadd_NaN (l : list fl) : fold_left fadd l NaN = NaN.
Proof. induction l as [|x l IH]; simpl; [reflexivity|exact IH]. Qed.

Lemma fold_left_fadd_In_NaN (l : list fl) (a : fl) :
  In NaN l -> fold_left fadd l a = NaN.
Proof.
  revert a. induction l as [|x l IH]; intros a; simpl; [contradiction|].
  intros [-> | Hin].
  - rewrite fadd_NaN_r. apply fold_left_fadd_NaN.
  - apply IH, Hin.
Qed.

Lemma fsum_In_NaN (l : list fl) : In NaN l -> fsum l = NaN.
Proof.
  destruct l as [|x l]; simpl; [contradiction|].
  intros [-> | Hin]; [apply fold_left_fadd_NaN|apply fold_left_fadd_In_NaN, Hin].
Qed.

Lemma fcos_bounded (v : fl) : bounded true 1 (fcos v).
Proof.
  destruct v as [x|s|]; simpl; [|reflexivity|reflexivity].
  specialize (Hcos x). lra.
Qed.

Lemma fcos_finite (v : fl) : is_finite v -> bounded false 1 (fcos v).
Proof.
  destruct v as [x|s|]; simpl; [|contradiction|contradiction].
  intros _. specialize (Hcos x). lra.
Qed.

Lemma fcos_not_finite (v : fl) : ~ is_finite v -> fcos v = NaN.
Proof. destruct v as [x|s|]; simpl; [tauto|reflexivity|reflexivity]. Qed.

(** *** Tensors of bounded numbers *)

Lemma tall_tadd (b : bool) (n : nat) k (x y : tensor k) :
  (S n <= 2048)%nat ->
  tall k (bounded b n) x -> tall k (bounded b 1) y ->
  tall k (bounded b (S n)) (tadd k x y).
Proof.
  intros Hn. revert x y. induction k as [|k IH]; simpl.
  - intros x y. apply fadd_bounded, Hn.
  - intros x y Hx. revert y.
    induction Hx as [|a x Ha Hx IHx]; intros y Hy; [constructor|].
    destruct Hy as [|c y Hc Hy]; simpl; constructor; auto.
Qed.

Lemma tall_fold_tadd (b : bool) k (rs : list (tensor k)) (r : tensor k) (n : nat) :
  (n + length rs <= 2048)%nat ->
  tall k (bounded b n) r -> Forall (tall k (bounded b 1)) rs ->
  tall k (bounded b (n + length rs)) (fold_left (tadd k) rs r).
Proof.
  intros Hn Hr Hrs. revert r n Hn Hr.
  induction Hrs as [|x rs Hx Hrs IH]; intros r n Hn Hr; simpl in *.
  - replace (n + 0)%nat with n by lia. exact Hr.
  - replace (n + S (length rs))%nat with (S n + length rs)%nat by lia.
    apply IH; [lia|]. apply tall_tadd; [lia|exact Hr|exact Hx].
Qed.

Lemma mean0_bounded (b : bool) k (t : tensor (S k)) (m : tensor k) :
  (length t <= 2048)%nat ->
  tall (S k) (bounded b 1) t -> mean0 k t = Some m -> tall k (bounded b 1) m.
Proof.
  intros Hlen Ht Hm. unfold mean0 in Hm.
  remember (length t) as n eqn:En.
  destruct t as [|r rs]; [discriminate|].
  injection Hm as <-. inversion Ht as [|? ? Hr Hrs]; subst.
  assert (Hfold : tall k (bounded b (1 + length rs)) (fold_left (tadd k) rs r)).
  { apply tall_fold_tadd; [exact Hlen|exact Hr|exact Hrs]. }
  eapply tall_tmap; [|exact Hfold].
  intros v Hv. apply (fdiv_count_bounded b (1 + length rs)); [|exact Hv].
  split; [apply Nat.le_add_r|exact Hlen].
Qed.


(** *** Shapes and closed forms *)

Lemma ieee_tbinop_vec f (u v : tensor 1) :
  length u = length v -> tbinop 1 f u v = Some (zip_with f u v).
Proof.
  intros H. simpl. rewrite Kernel.broadcast_axis_same_length by exact H.
  apply Kernel.zipM_total; [exact H|reflexivity].
Qed.

Lemma ieee_length_scaled_diff r1 r2 D :
  length r1 = D -> length r2 = D -> length (scaled_diff r1 r2) = D.
Proof.
  intros H1 H2. unfold scaled_diff.
  rewrite length_zip_with, !length_map. lia.
Qed.

Lemma ieee_tsub_diag_closed n D (x1 x2 : tensor 2) :
  rect n D x1 -> rect n D x2 ->
  tsub 2 (div_lengthscale x1) (div_lengthscale x2)
  = Some (zip_with scaled_diff x1 x2).
Proof.
  intros [Hn1 HD1] [Hn2 HD2]. unfold tsub, div_lengthscale, tmap. simpl.
  rewrite Kernel.broadcast_axis_same_length by (rewrite !length_map; lia).
  rewrite (Kernel.zipM_total _ (zip_with fsub)).
  - rewrite Kernel.zip_with_map_map. reflexivity.
  - rewrite !length_map. lia.
  - intros a b Ha Hb. apply (ieee_tbinop_vec fsub).
    apply list_elem_of_In, in_map_iff in Ha as (a' & <- & Ha').
    apply list_elem_of_In, in_map_iff in Hb as (b' & <- & Hb').
    rewrite !length_map.
    rewrite Forall_forall in HD1, HD2.
    rewrite (HD1 a'), (HD2 b') by (apply list_elem_of_In; assumption).
    reflexivity.
Qed.

Lemma ieee_tsub_full_closed n m D (x1 x2 : tensor 2) :
  rect n D x1 -> rect m D x2 ->
  tsub 3 (unsqueeze_m2_r2 (div_lengthscale x1)) (unsqueeze_m3_r2 (div_lengthscale x2))
  = Some (map (fun r1 => map (fun r2 => scaled_diff r1 r2) x2) x1).
Proof.
  intros [Hn1 HD1] [Hn2 HD2].
  unfold tsub, unsqueeze_m2_r2, unsqueeze_m3_r2, div_lengthscale, tmap. simpl.
  rewrite Kernel.broadcast_axis_singleton_r, !Kernel.mapM_map.
  apply Kernel.mapM_total. intros r1 Hr1.
  rewrite Kernel.broadcast_axis_singleton_l, Kernel.mapM_map.
  apply Kernel.mapM_total. intros r2 Hr2.
  apply (ieee_tbinop_vec fsub). rewrite !length_map.
  rewrite Forall_forall in HD1, HD2. rewrite (HD1 r1), (HD2 r2); auto.
Qed.

(** [(Z.unsqueeze(-2) * diffs.unsqueeze(-3)).sum(-1)]: one dot product per
    sample and pair. *)
Lemma ieee_diffs_times_Z_diag D (Z diffs : tensor 2) :
  Forall (fun z => length z = D) Z -> Forall (fun d => length d = D) diffs ->
  sum_last 2 <$> tmul 3 (unsqueeze_m2_r2 Z) (unsqueeze_m3_r2 diffs)
  = Some (map (fun z => map (fun d => dot z d) diffs) Z).
Proof.
  intros HZ Hd. unfold tmul, unsqueeze_m2_r2, unsqueeze_m3_r2. simpl.
  rewrite Kernel.broadcast_axis_singleton_r, Kernel.mapM_map.
  rewrite (Kernel.mapM_total _ (fun z => map (fun d => zip_with fmul z d) diffs)).
  - simpl. rewrite map_map. f_equal. apply map_ext. intros z.
    rewrite map_map. reflexivity.
  - intros z Hz. rewrite Kernel.broadcast_axis_singleton_l.
    apply Kernel.mapM_total. intros d Hdd. apply (ieee_tbinop_vec fmul).
    rewrite Forall_forall in HZ, Hd. rewrite (HZ z), (Hd d); auto.
Qed.

(** [(Z.unsqueeze(-2).unsqueeze(-2) * diffs.unsqueeze(-4)).sum(-1)] *)
Lemma ieee_diffs_times_Z_full D (Z : tensor 2) (diffs : tensor 3) :
  Forall (fun z => length z = D) Z ->
  Forall (Forall (fun d => length d = D)) diffs ->
  sum_last 3 <$> tmul 4 (unsqueeze_m2_r3 (unsqueeze_m2_r2 Z)) (unsqueeze_m4_r3 diffs)
  = Some (map (fun z => map (map (fun d => dot z d)) diffs) Z).
Proof.
  intros HZ Hd. unfold tmul, unsqueeze_m2_r3, unsqueeze_m2_r2, unsqueeze_m4_r3. simpl.
  rewrite Kernel.broadcast_axis_singleton_r, !map_map, Kernel.mapM_map.
  rewrite (Kernel.mapM_total _ (fun z => map (map (fun d => zip_with fmul z d)) diffs)).
  - simpl. rewrite map_map. f_equal. apply map_ext. intros z.
    rewrite map_map. apply map_ext. intros row.
    rewrite map_map. reflexivity.
  - intros z Hz. simpl. rewrite Kernel.broadcast_axis_singleton_l.
    apply Kernel.mapM_total. intros row Hrow.
    rewrite Kernel.broadcast_axis_singleton_l.
    apply Kernel.mapM_total. intros d Hdd. apply (ieee_tbinop_vec fmul).
    rewrite Forall_forall in HZ. rewrite Forall_forall in Hd.
    specialize (Hd row Hrow). rewrite Forall_forall in Hd.
    rewrite (HZ z), (Hd d); auto.
Qed.

(** The mean over the sample axis, entry by entry. *)
Lemma ieee_mean0_vectors {I A} (F : I -> A -> fl) (ss : list I) (ds : list A) :
  ss <> [] ->
  mean0 1 (map (fun s => map (F s) ds) ss)
  = Some (map (fun d => fdiv (fsum (map (fun s => F s d) ss)) (Fin (INR (length ss)))) ds).
Proof.
  intros Hss. destruct ss as [|s0 ss]; [congruence|].
  unfold mean0. cbn [map length]. f_equal. rewrite length_map.
  change (tadd 1) with (zip_with fadd).
  rewrite (Kernel.fold_zip_map fadd F (F s0)). unfold tmap. simpl Kernel.at_depth.
  rewrite map_map. reflexivity.
Qed.

Lemma ieee_mean0_matrices {I A B} (F : I -> A -> B -> fl) (ss : list I)
    (xs : list A) (ys : list B) :
  ss <> [] ->
  mean0 2 (map (fun s => map (fun x => map (F s x) ys) xs) ss)
  = Some (map (fun x => map (fun y =>
            fdiv (fsum (map (fun s => F s x y) ss)) (Fin (INR (length ss)))) ys) xs).
Proof.
  intros Hss. destruct ss as [|s0 ss]; [congruence|].
  unfold mean0. cbn [map length]. f_equal. rewrite length_map.
  change (tadd 2) with (zip_with (zip_with fadd)).
  rewrite (Kernel.fold_zip_map (zip_with fadd) (fun s x => map (F s x) ys)
             (fun x => map (F s0 x) ys)).
  unfold tmap. simpl Kernel.at_depth. rewrite map_map.
  apply map_ext. intros x.
  rewrite (Kernel.fold_zip_map fadd (fun s => F s x) (F s0 x)), map_map.
  reflexivity.
Qed.

Lemma ieee_cos_2pi_diag {I} (om : I -> tensor 1) (ss : list I) (x1 x2 : tensor 2) :
  cos_2pi 2 (map (fun z => map (fun d => dot z d) (zip_with scaled_diff x1 x2))
                 (map om ss))
  = map (fun s => map (fun p => fcos (cos_argument (om s) p.1 p.2)) (zip x1 x2)) ss.
Proof.
  unfold cos_2pi, tmap. simpl Kernel.at_depth. rewrite !map_map.
  apply map_ext. intros s. rewrite map_map.
  rewrite (Kernel.map_zip_with (fun x => fcos (fmul (dot (om s) x) (Fin two_pi)))).
  rewrite (Kernel.map_zip_with
             (fun p : tensor 1 * tensor 1 => fcos (cos_argument (om s) p.1 p.2)) pair).
  reflexivity.
Qed.

Lemma ieee_cos_2pi_full {I} (om : I -> tensor 1) (ss : list I) (x1 x2 : tensor 2) :
  cos_2pi 3 (map (fun z => map (map (fun d => dot z d))
                   (map (fun r1 => map (fun r2 => scaled_diff r1 r2) x2) x1))
                 (map om ss))
  = map (fun s => map (fun r1 => map (fun r2 => fcos (cos_argument (om s) r1 r2)) x2) x1) ss.
Proof.
  unfold cos_2pi, tmap. simpl Kernel.at_depth. rewrite !map_map.
  apply map_ext. intros s. rewrite !map_map.
  apply map_ext. intros r1. rewrite !map_map. reflexivity.
Qed.

Lemma ieee_rect_scaled_diff_diag n D x1 x2 :
  rect n D x1 -> rect n D x2 ->
  Forall (fun d => length d = D) (zip_with scaled_diff x1 x2).
Proof.
  intros [Hn1 HD1] [Hn2 HD2]. clear Hn1 Hn2. revert x2 HD2.
  induction HD1 as [|r1 x1 Hr1 HD1 IH]; intros x2 HD2; [constructor|].
  destruct HD2 as [|r2 x2 Hr2 HD2]; simpl; constructor; auto.
  apply ieee_length_scaled_diff; assumption.
Qed.

Lemma ieee_rect_scaled_diff_full n m D x1 x2 :
  rect n D x1 -> rect m D x2 ->
  Forall (Forall (fun d => length d = D))
         (map (fun r1 => map (fun r2 => scaled_diff r1 r2) x2) x1).
Proof.
  intros [_ HD1] [_ HD2].
  induction HD1 as [|r1 x1 Hr1 HD1 IH]; simpl; constructor; auto.
  clear IH. induction HD2 as [|r2 x2 Hr2 HD2 IH]; simpl; constructor; auto.
  apply ieee_length_scaled_diff; assumption.
Qed.

Lemma ieee_samples_length (D : nat) (ss : list nat) :
  (forall s, length (omega s) = D) -> Forall (fun z => length z = D) (map omega ss).
Proof. intros Hom. induction ss; simpl; constructor; auto. Qed.

Lemma Z_samples : (if training then rsample 2000 else rsample 2000) = map omega (seq 0 2000).
Proof. destruct training; reflexivity. Qed.

(** The kernel on [n] paired points ([diag=True]). *)
Lemma ieee_forward_diag_closed n D (x1 x2 : tensor 2) :
  rect n D x1 -> rect n D x2 -> (forall s, length (omega s) = D) ->
  forward x1 x2 true = Some (map (fun p => kernel_entry p.1 p.2) (zip x1 x2)).
Proof.
  intros H1 H2 Hom. unfold forward. cbn [_create_input_grid].
  rewrite (ieee_tsub_diag_closed n D) by assumption. cbn [mbind option_bind].
  rewrite Z_samples.
  etransitivity;
    [exact (Kernel.bind_of_fmap (sum_last 2) _ _ (fun t => mean0 1 (cos_2pi 2 t))
             (ieee_diffs_times_Z_diag D _ _ (ieee_samples_length D (seq 0 2000) Hom)
                (ieee_rect_scaled_diff_diag n D x1 x2 H1 H2)))|].
  rewrite ieee_cos_2pi_diag, ieee_mean0_vectors by (apply Kernel.seq_nonempty; lia).
  rewrite length_seq, Kernel.INR_2000. reflexivity.
Qed.

(** The kernel on all pairs of [n] and [m] points ([diag=False]). *)
Lemma ieee_forward_full_closed n m D (x1 x2 : tensor 2) :
  rect n D x1 -> rect m D x2 -> (forall s, length (omega s) = D) ->
  forward x1 x2 false
  = Some (map (fun r1 => map (fun r2 => kernel_entry r1 r2) x2) x1).
Proof.
  intros H1 H2 Hom. unfold forward. cbn [_create_input_grid].
  rewrite (ieee_tsub_full_closed n m D) by assumption. cbn [mbind option_bind].
  rewrite Z_samples.
  etransitivity;
    [exact (Kernel.bind_of_fmap (sum_last 3) _ _ (fun t => mean0 2 (cos_2pi 3 t))
             (ieee_diffs_times_Z_full D _ _ (ieee_samples_length D (seq 0 2000) Hom)
                (ieee_rect_scaled_diff_full n m D x1 x2 H1 H2)))|].
  rewrite ieee_cos_2pi_full, ieee_mean0_matrices by (apply Kernel.seq_nonempty; lia).
  rewrite length_seq, Kernel.INR_2000. reflexivity.
Qed.

(** *** The entries of the result *)

Lemma unit_interval_or_nan_entry (r1 r2 : tensor 1) :
  unit_interval_or_nan (kernel_entry r1 r2).
Proof.
  apply bounded_unit_interval_or_nan. unfold kernel_entry.
  rewrite <- Kernel.INR_2000, <- (length_seq 2000 0).
  rewrite <- (length_map (fun s => fcos (cos_argument (omega s) r1 r2)) (seq 0 2000)).
  apply mean_bounded.
  - intros H. apply (f_equal (@length _)) in H.
    rewrite length_map, length_seq in H. discriminate H.
  - rewrite length_map, length_seq. lia.
  - apply Forall_forall. intros v Hv.
    apply list_elem_of_In, in_map_iff in Hv as (s & <- & _). apply fcos_bounded.
Qed.

Lemma unit_interval_entry (r1 r2 : tensor 1) :
  (forall s, (s < 2000)%nat -> is_finite (cos_argument (omega s) r1 r2)) ->
  unit_interval (kernel_entry r1 r2).
Proof.
  intros Hfin. apply bounded_unit_interval. unfold kernel_entry.
  rewrite <- Kernel.INR_2000, <- (length_seq 2000 0).
  rewrite <- (length_map (fun s => fcos (cos_argument (omega s) r1 r2)) (seq 0 2000)).
  apply mean_bounded.
  - intros H. apply (f_equal (@length _)) in H.
    rewrite length_map, length_seq in H. discriminate H.
  - rewrite length_map, length_seq. lia.
  - apply Forall_forall. intros v Hv.
    apply list_elem_of_In, in_map_iff in Hv as (s & <- & Hs).
    apply fcos_finite, Hfin. apply in_seq in Hs. lia.
Qed.

Lemma nan_entry (r1 r2 : tensor 1) (s : nat) :
  (s < 2000)%nat -> ~ is_finite (cos_argument (omega s) r1 r2) ->
  kernel_entry r1 r2 = NaN.
Proof.
  intros Hs Hinf. unfold kernel_entry. rewrite fsum_In_NaN; [reflexivity|].
  apply in_map_iff. exists s. split; [apply fcos_not_finite, Hinf|].
  apply in_seq. lia.
Qed.

(** The product of the samples and the differences has one row for each
    sample. *)
Lemma tmul_samples_length_diag (Z diffs : tensor 2) (prod : tensor 3) :
  tmul 3 (unsqueeze_m2_r2 Z) (unsqueeze_m3_r2 diffs) = Some prod ->
  length prod = length Z.
Proof.
  unfold tmul, unsqueeze_m2_r2, unsqueeze_m3_r2. simpl.
  rewrite Kernel.broadcast_axis_singleton_r. intros H.
  apply length_mapM in H. rewrite length_map in H. symmetry. exact H.
Qed.

Lemma tmul_samples_length_full (Z : tensor 2) (diffs : tensor 3) (prod : tensor 4) :
  tmul 4 (unsqueeze_m2_r3 (unsqueeze_m2_r2 Z)) (unsqueeze_m4_r3 diffs) = Some prod ->
  length prod = length Z.
Proof.
  unfold tmul, unsqueeze_m2_r3, unsqueeze_m2_r2, unsqueeze_m4_r3. simpl.
  rewrite Kernel.broadcast_axis_singleton_r. intros H.
  apply length_mapM in H. rewrite !length_map in H. symmetry. exact H.
Qed.

Lemma length_cos_2pi_sum_last k (t : tensor (S (S k))) :
  length (cos_2pi (S k) (sum_last (S k) t)) = length t.
Proof. unfold cos_2pi, tmap. simpl. rewrite !length_map. reflexivity. Qed.

Lemma length_Z : length (if training then rsample 2000 else rsample 2000) = 2000%nat.
Proof. destruct training; unfold rsample; rewrite length_map; apply length_seq. Qed.

Lemma forward_bounded (x1 x2 : tensor 2) (diag : bool) (K : tensor (Kernel.out_rank diag)) :
  forward x1 x2 diag = Some K -> tall (Kernel.out_rank diag) (bounded true 1) K.
Proof.
  intros HK. unfold forward in HK. cbv zeta in HK. destruct diag.
  - cbn [_create_input_grid] in HK.
    destruct (tsub 2 _ _) as [diffs|]; [|discriminate].
    cbn [mbind option_bind] in HK.
    destruct (tmul 3 _ _) as [prod|] eqn:Hprod; [|discriminate].
    cbn [mbind option_bind] in HK.
    apply tmul_samples_length_diag in Hprod.
    assert (Hlen : length prod = 2000%nat) by (rewrite Hprod; exact length_Z).
    eapply (mean0_bounded true 1); [| |exact HK].
    + rewrite (length_cos_2pi_sum_last 1), Hlen. lia.
    + apply tall_tmap_any. intros v. apply fcos_bounded.
  - cbn [_create_input_grid] in HK.
    destruct (tsub 3 _ _) as [diffs|]; [|discriminate].
    cbn [mbind option_bind] in HK.
    destruct (tmul 4 _ _) as [prod|] eqn:Hprod; [|discriminate].
    cbn [mbind option_bind] in HK.
    apply tmul_samples_length_full in Hprod.
    assert (Hlen : length prod = 2000%nat) by (rewrite Hprod; exact length_Z).
    eapply (mean0_bounded true 2); [| |exact HK].
    + rewrite (length_cos_2pi_sum_last 2), Hlen. lia.
    + apply tall_tmap_any. intros v. apply fcos_bounded.
Qed.

(** C9 (as amended). Every entry of the covariance that the plain
    cosine-average kernel [SpectralAutoregressiveFlowKernel.forward]
    returns is NaN or lies in [[-1, 1]], in [diag] and in full mode, for
    every lengthscale, every mode flag and every draw of the frequency
    samples, infinities and NaN included.  On point sets of the dimension
    of the samples (of the same size in [diag] mode) the kernel returns
    the mean of 2000 cosines for each pair of points; that entry lies in
    [[-1, 1]] when the 2000 numbers whose cosine is taken are finite, and
    it is NaN as soon as one of them is an infinity or NaN. *)
Theorem forward_entries_in_unit_interval_or_nan (x1 x2 : tensor 2) (diag : bool) :
  (forall K, forward x1 x2 diag = Some K ->
             tall (Kernel.out_rank diag) unit_interval_or_nan K)
  /\ (forall n m D, rect n D x1 -> rect (if diag then n else m) D x2 ->
        (forall s, length (omega s) = D) ->
        forward x1 x2 diag
        = Some (match diag return tensor (Kernel.out_rank diag) with
                | true => map (fun p => kernel_entry p.1 p.2) (zip x1 x2)
                | false => map (fun r1 => map (fun r2 => kernel_entry r1 r2) x2) x1
                end))
  /\ (forall r1 r2 : tensor 1,
        (forall s, (s < 2000)%nat -> is_finite (cos_argument (omega s) r1 r2)) ->
        unit_interval (kernel_entry r1 r2))
  /\ (forall (r1 r2 : tensor 1) (s : nat),
        (s < 2000)%nat -> ~ is_finite (cos_argument (omega s) r1 r2) ->
        kernel_entry r1 r2 = NaN).
Proof.
  split; [|split; [|split]].
  - intros K HK. eapply tall_impl; [|exact (forward_bounded x1 x2 diag K HK)].
    intros v. apply bounded_unit_interval_or_nan.
  - intros n m D H1 H2 Hom. destruct diag.
    + apply (ieee_forward_diag_closed n D); assumption.
    + apply (ieee_forward_full_closed n m D); assumption.
  - apply unit_interval_entry.
  - apply nan_entry.
Qed.

(** *** The kernel of a point with itself *)

Lemma scaled_diff_same (r : tensor 1) :
  Forall is_finite (map (fun v => fdiv v lengthscale) r) ->
  scaled_diff r r = map (fun _ => Fin 0) r.
Proof.
  unfold scaled_diff. intros H.
  induction r as [|v r IH]; simpl in *; [reflexivity|].
  inversion H as [|? ? Hv Hr]; subst. rewrite (IH Hr). f_equal.
  destruct (fdiv v lengthscale) as [q| |]; simpl in *; try contradiction.
  replace (q - q) with 0 by ring. apply rnd_0.
Qed.

Lemma fold_left_fadd_zeros {A} (l : list A) :
  fold_left fadd (map (fun _ => Fin 0) l) (Fin 0) = Fin 0.
Proof.
  induction l as [|a l IH]; simpl; [reflexivity|].
  replace (0 + 0) with 0 by ring. rewrite rnd_0. exact IH.
Qed.

Lemma fsum_zeros {A} (l : list A) : fsum (map (fun _ => Fin 0) l) = Fin 0.
Proof. destruct l as [|a l]; simpl; [reflexivity|apply fold_left_fadd_zeros]. Qed.

Lemma dot_zeros {A} (z : tensor 1) (r : list A) :
  Forall is_finite z -> dot z (map (fun _ => Fin 0) r) = Fin 0.
Proof.
  intros Hz. unfold dot.
  assert (H : zip_with fmul z (map (fun _ => Fin 0) r)
              = map (fun _ => Fin 0) (zip z r)).
  { revert r. induction Hz as [|a z Ha Hz IH]; intros [|b r]; simpl; try reflexivity.
    rewrite IH. f_equal. destruct a as [a| |]; simpl in *; try contradiction.
    rewrite Rmult_0_r. apply rnd_0. }
  rewrite H. apply fsum_zeros.
Qed.

Lemma cos_argument_same (z r : tensor 1) :
  Forall is_finite z -> Forall is_finite (map (fun v => fdiv v lengthscale) r) ->
  cos_argument z r r = Fin 0.
Proof.
  intros Hz Hr. unfold cos_argument. rewrite (scaled_diff_same r Hr), (dot_zeros z r Hz).
  simpl. rewrite Rmult_0_l. apply rnd_0.
Qed.

Lemma fold_left_fadd_ones {A} (l : list A) (k : nat) :
  (k + length l <= 2048)%nat ->
  fold_left fadd (map (fun _ => Fin 1) l) (Fin (INR k)) = Fin (INR (k + length l)).
Proof.
  revert k. induction l as [|a l IH]; intros k Hk; simpl in *.
  - rewrite Nat.add_0_r. reflexivity.
  - rewrite <- S_INR, (INR_IZR_INZ (S k)), (rnd_integer rnd Hfmt) by lia.
    rewrite <- INR_IZR_INZ, (IH (S k)) by lia.
    f_equal. f_equal. lia.
Qed.

Lemma fsum_ones {A} (l : list A) :
  l <> [] -> (length l <= 2048)%nat ->
  fsum (map (fun _ => Fin 1) l) = Fin (INR (length l)).
Proof.
  intros Hne Hlen. destruct l as [|a l]; [congruence|].
  cbn [map fsum length] in *. change (Fin 1) with (Fin (INR 1)) at 2.
  rewrite (fold_left_fadd_ones l 1) by lia. reflexivity.
Qed.

Lemma kernel_entry_same (r : tensor 1) :
  cos_lib 0 = 1 ->
  (forall s, (s < 2000)%nat -> Forall is_finite (omega s)) ->
  Forall is_finite (map (fun v => fdiv v lengthscale) r) ->
  kernel_entry r r = Fin 1.
Proof.
  intros Hcos0 Hom Hr. unfold kernel_entry.
  rewrite (map_ext_in _ (fun _ => Fin 1)).
  - rewrite fsum_ones.
    + rewrite length_seq, Kernel.INR_2000. simpl.
      destruct (decide (2000 = 0)) as [H|_]; [lra|].
      replace (2000 / 2000) with 1 by (unfold Rdiv; rewrite Rinv_r; lra).
      apply rnd_1.
    + apply Kernel.seq_nonempty. lia.
    + rewrite length_seq. lia.
  - intros s Hs. apply in_seq in Hs.
    rewrite cos_argument_same; [|apply Hom; lia|exact Hr].
    simpl. rewrite Hcos0. reflexivity.
Qed.

(** X3. The plain kernel of a point with itself is 1 in floating point
    too: in [diag] mode on [(x, x)] every entry is exactly 1 when the
    library's cosine gives 1 at 0, the frequency samples are finite and the
    points divided by the lengthscale are finite numbers (the lengthscale
    is not zero and no quotient is too large for the format). *)
Theorem forward_diag_of_equal_inputs (n D : nat) (x : tensor 2) :
  cos_lib 0 = 1 ->
  rect n D x -> (forall s, length (omega s) = D) ->
  (forall s, (s < 2000)%nat -> Forall is_finite (omega s)) ->
  tall 2 is_finite (div_lengthscale x) ->
  forward x x true = Some (map (fun _ => Fin 1) x).
Proof.
  intros Hcos0 Hx Hlen Hom Hfin.
  rewrite (ieee_forward_diag_closed n D) by assumption. f_equal.
  unfold div_lengthscale, tmap in Hfin. simpl in Hfin.
  clear Hx. induction x as [|r x IH]; simpl in *; [reflexivity|].
  inversion Hfin as [|? ? Hr Hrest]; subst.
  rewrite (kernel_entry_same r Hcos0 Hom Hr), (IH Hrest). reflexivity.
Qed.

End Arithmetic.

(** *** An instance: the format that holds every real number

    Nothing is rounded and nothing is too large for this format; the
    special values behave as in every format.  The library's cosine is the
    cosine itself. *)
Definition rnd_exact (r : R) : fl := Fin r.

Lemma rnd_exact_format : format rnd_exact.
Proof. split; [intros a b H; exact H|intros z _; reflexivity]. Qed.

Lemma rect_point (r : tensor 1) : rect 1 (length r) [r].
Proof. split; [reflexivity|]. repeat constructor. Qed.

Lemma fdiv_zero (rnd : R -> fl) (a : R) :
  a <> 0 -> fdiv rnd (Fin a) (Fin 0) = Inf (is_negative a).
Proof.
  intros Ha. simpl. destruct (decide (0 = 0)) as [_|H]; [|congruence].
  destruct (decide (a = 0)) as [H|_]; [congruence|reflexivity].
Qed.

Lemma fdiv_nonzero (rnd : R -> fl) (a b : R) :
  b <> 0 -> fdiv rnd (Fin a) (Fin b) = rnd (a / b).
Proof. intros Hb. simpl. destruct (decide (b = 0)); [congruence|reflexivity]. Qed.

Lemma cos_argument_origin_finite :
  is_finite (cos_argument rnd_exact (2 * PI) (Fin 1) [Fin 0] [Fin 0] [Fin 0]).
Proof.
  unfold cos_argument, scaled_diff, dot. cbn [map zip_with fsum fold_left].
  rewrite (fdiv_nonzero rnd_exact 0 1) by lra. exact I.
Qed.

Lemma forward_entries_in_unit_interval_or_nan_witness :
  forward rnd_exact cos (2 * PI) (Fin 1) false (fun _ => [Fin 0])
          [[Fin 0]] [[Fin 0]] true
  = Some [kernel_entry rnd_exact cos (2 * PI) (Fin 1) (fun _ => [Fin 0])
                       [Fin 0] [Fin 0]]
  /\ unit_interval (kernel_entry rnd_exact cos (2 * PI) (Fin 1) (fun _ => [Fin 0])
                                 [Fin 0] [Fin 0]).
Proof.
  destruct (forward_entries_in_unit_interval_or_nan rnd_exact cos (2 * PI) (Fin 1)
              false (fun _ => [Fin 0]) rnd_exact_format COS_bound
              [[Fin 0]] [[Fin 0]] true) as (_ & Hdef & Hfin & _).
  split.
  - exact (Hdef 1%nat 1%nat 1%nat (rect_point [Fin 0]) (rect_point [Fin 0])
             (fun _ => eq_refl)).
  - apply Hfin. intros s _. exact cos_argument_origin_finite.
Defined.

(** C9 as stated fails: with lengthscale 0 the point 1 divided by the
    lengthscale is an infinity, the difference of the two infinities is
    NaN, and the kernel returns NaN, which is no number of [[-1, 1]]. *)
Lemma forward_nan_at_zero_lengthscale :
  forward rnd_exact cos (2 * PI) (Fin 0) false (fun _ => [Fin 1])
          [[Fin 1]] [[Fin 1]] true
  = Some [NaN]
  /\ ~ unit_interval NaN.
Proof.
  split; [|simpl; tauto].
  rewrite (ieee_forward_diag_closed rnd_exact cos (2 * PI) (Fin 0) false (fun _ => [Fin 1])
             1 1 [[Fin 1]] [[Fin 1]] (rect_point [Fin 1]) (rect_point [Fin 1])
             (fun _ => eq_refl)).
  change (zip [[Fin 1]] [[Fin 1]]) with [([Fin 1], [Fin 1])]. cbn [map fst snd].
  rewrite (nan_entry rnd_exact cos (2 * PI) (Fin 0) (fun _ => [Fin 1])
             [Fin 1] [Fin 1] 0); [reflexivity|lia|].
  unfold cos_argument, scaled_diff, dot. cbn [map zip_with fsum fold_left].
  rewrite (fdiv_zero rnd_exact 1) by lra.
  destruct (is_negative 1); simpl; tauto.
Qed.

Lemma forward_diag_of_equal_inputs_witness :
  forward rnd_exact cos (2 * PI) (Fin 2) true (fun _ => [Fin 1])
          [[Fin 1]; [Fin 3]] [[Fin 1]; [Fin 3]] true
  = Some [Fin 1; Fin 1].
Proof.
  apply (forward_diag_of_equal_inputs rnd_exact cos (2 * PI) (Fin 2) true
           (fun _ => [Fin 1]) rnd_exact_format 2 1 [[Fin 1]; [Fin 3]]).
  - exact cos_0.
  - split; [reflexivity|]. repeat constructor.
  - reflexivity.
  - intros s _. repeat constructor.
  - unfold div_lengthscale, tmap. cbn [Kernel.at_depth map].
    rewrite !(fdiv_nonzero rnd_exact _ 2) by lra. repeat constructor.
Defined.

End KernelIEEE.

Module Strategy.

Local Open Scope Z_scope.
Local Open Scope string_scope.

Section VariationalStrategy.

(** *** The objects the strategy handles

    [tensor] and [lazy_tensor] belong to the tensor engine, [generator] is
    the state of the variational-distribution object that the strategy
    holds in [self._variational_distribution]. *)
Variable tensor : Type.
Variable lazy_tensor : Type.
Variable generator : Type.

(** Python objects, by class: the two distributions that [__call__] tells
    apart with [isinstance], tensors, pairs, and objects of any other
    class, known by the name of that class. *)
Inductive pyobj : Type :=
| MultivariateNormal (mean : tensor) (lazy_covariance_matrix : lazy_tensor)
| Delta (mean : tensor)
| Tensor (t : tensor)
| Pair (first second : pyobj)
| Other (type_name : string).

(** What one invocation does, in order; the strategy record carries this
    log next to the fields of the Python object and nothing reads it. *)
Inductive event : Type :=
| EvInvalidate
| EvInitCheck
| EvInitialize (prior_dist : pyobj)
| EvRetrieve
| EvMarginalize (x inducing_points inducing_values : tensor)
                (variational_inducing_covar : option lazy_tensor).

Record strategy : Type := {
  training : bool;
  (* [None]: the attribute [_memoize_cache] does not exist *)
  _memoize_cache : option (gmap string pyobj);
  (* the buffer [variational_params_initialized], a 0-dimensional tensor *)
  variational_params_initialized : Z;
  inducing_points : tensor;
  _variational_distribution : generator;
  trace : list event
}.

Definition set_training (b : bool) (s : strategy) : strategy :=
  {| training := b;
     _memoize_cache := _memoize_cache s;
     variational_params_initialized := variational_params_initialized s;
     inducing_points := inducing_points s;
     _variational_distribution := _variational_distribution s;
     trace := trace s |}.

Definition set_memoize_cache (c : option (gmap string pyobj)) (s : strategy) : strategy :=
  {| training := training s;
     _memoize_cache := c;
     variational_params_initialized := variational_params_initialized s;
     inducing_points := inducing_points s;
     _variational_distribution := _variational_distribution s;
     trace := trace s |}.

Definition set_variational_params_initialized (z : Z) (s : strategy) : strategy :=
  {| training := training s;
     _memoize_cache := _memoize_cache s;
     variational_params_initialized := z;
     inducing_points := inducing_points s;
     _variational_distribution := _variational_distribution s;
     trace := trace s |}.

Definition set_variational_distribution (g : generator) (s : strategy) : strategy :=
  {| training := training s;
     _memoize_cache := _memoize_cache s;
     variational_params_initialized := variational_params_initialized s;
     inducing_points := inducing_points s;
     _variational_distribution := g;
     trace := trace s |}.

Definition log (e : event) (s : strategy) : strategy :=
  {| training := training s;
     _memoize_cache := _memoize_cache s;
     variational_params_initialized := variational_params_initialized s;
     inducing_points := inducing_points s;
     _variational_distribution := _variational_distribution s;
     trace := trace s ++ [e] |}.

(** *** Methods: state passing with exceptions

    A method takes the instance and gives back a value or a raised
    exception, together with the instance as the method left it: what was
    written before an exception stays written. *)
Definition M (A : Type) : Type := strategy -> result A * strategy.

Definition ret {A : Type} (a : A) : M A := fun s => (Ok a, s).

Definition raise {A : Type} (e : exn) : M A := fun s => (Raise e, s).

Definition bind {A B : Type} (m : M A) (k : A -> M B) : M B :=
  fun s => match m s with
           | (Ok a, s') => k a s'
           | (Raise e, s') => (Raise e, s')
           end.

Definition lift {A : Type} (r : result A) : M A := fun s => (r, s).

Definition gets {A : Type} (f : strategy -> A) : M A := fun s => (Ok (f s), s).

Definition modify (f : strategy -> strategy) : M unit := fun s => (Ok tt, f s).

Notation "'let*' x ':=' m 'in' k" := (bind m (fun x => k))
  (at level 10, x name, m at level 100, k at level 200).
Notation "m ';;' k" := (bind m (fun _ => k))
  (at level 100, k at level 200, right associativity).

(** *** The collaborators *)

(** [self.model.forward(x)] *)
Variable model_forward : tensor -> result pyobj.
(** [self._variational_distribution()], its [batch_shape], its
    [initialize_variational_distribution(prior_dist)], and what
    [Module.train(mode)] does to it as a child module. *)
Variable generator_call : generator -> result pyobj.
Variable batch_shape : generator -> list nat.
Variable initialize_variational_distribution : pyobj -> generator -> result generator.
Variable generator_train : bool -> generator -> generator.
(** The body of the concrete subclass's [prior_distribution]. *)
Variable prior_distribution_body : strategy -> result pyobj.
(** [t.expand] to the batch shape of the variational distribution followed
    by the last two sizes of [t]. *)
Variable expand : list nat -> tensor -> result tensor.
(** [psd_safe_cholesky(delazify(m).double())] *)
Variable psd_safe_cholesky : lazy_tensor -> result tensor.
(** [torch.distributions.kl.kl_divergence(q, p)] *)
Variable kl : pyobj -> pyobj -> result tensor.
(** [list(v)] for an object [v] that is not a tuple: the items that
    iterating over it yields (a tensor yields its slices along the first
    axis, a distribution with [__getitem__] its batch members), or the
    exception that [iter(v)] or a step of the iteration raises
    ([TypeError] for an object that is not iterable). *)
Variable py_iter : pyobj -> result (list pyobj).
(** [super().__call__(x, inducing_points, inducing_values=...,
    variational_inducing_covar=...)]: [Module.__call__] runs the concrete
    subclass's [forward], the marginalization step.  It reads the instance
    and may memoize (e.g. through [_cholesky_factor]): it gives back its
    result and the cache as it leaves it. *)
Variable marginalize :
  tensor -> tensor -> tensor -> option lazy_tensor -> strategy ->
  result pyobj * option (gmap string pyobj).

(** [t.dim()] and [t.unsqueeze(-1)] *)
Variable tensor_dim : tensor -> nat.
Variable unsqueeze_last : tensor -> tensor.

(** [__init__(self, model, inducing_points, variational_distribution,
    learn_inducing_locations=True)].  A new module is in training mode and
    has no [_memoize_cache]; the inducing points are stored as a parameter
    or as a buffer, which are the same field here; the model is reached
    through [model_forward]. *)
Definition __init__ (inducing_points : tensor) (variational_distribution : generator)
    (learn_inducing_locations : bool) : strategy :=
  let inducing_points :=
    if (tensor_dim inducing_points =? 1)%nat
    then unsqueeze_last inducing_points
    else inducing_points in
  {| training := true;
     _memoize_cache := None;
     variational_params_initialized := 0;
     inducing_points := inducing_points;
     _variational_distribution := variational_distribution;
     trace := [] |}.

(** *** Memoization *)

Definition get_from_cache (name : string) (s : strategy) : option pyobj :=
  c ← _memoize_cache s; c !! name.

Definition add_to_cache (name : string) (v : pyobj) (s : strategy) : strategy :=
  set_memoize_cache (Some (<[name := v]> (default ∅ (_memoize_cache s)))) s.

(** Modelled from the spec: the decorator [cached(name=...)] of
    [gpytorch/utils/memoize.py], which is not among the source files.  A
    cache entry is "a computed-on-demand value ... keyed by a name string,
    stored per strategy instance", "created lazily on first access": the
    method runs when the cache has no entry of that name, and its result is
    stored under the name. *)
Definition cached (name : string) (method : M pyobj) : M pyobj :=
  fun s => match get_from_cache name s with
           | Some v => (Ok v, s)
           | None =>
               match method s with
               | (Ok v, s') => (Ok v, add_to_cache name v s')
               | (Raise e, s') => (Raise e, s')
               end
           end.

(** [hasattr(self, "_memoize_cache")] and [delattr(self, "_memoize_cache")] *)
Definition hasattr_memoize_cache (s : strategy) : bool :=
  match _memoize_cache s with Some _ => true | None => false end.

Definition delattr_memoize_cache (s : strategy) : strategy :=
  set_memoize_cache None s.

(** *** [_VariationalStrategy] *)

(** [_cholesky_factor(self, induc_induc_covar)], [@cached(name="cholesky_factor")] *)
Definition _cholesky_factor (induc_induc_covar : lazy_tensor) : M pyobj :=
  cached "cholesky_factor"
    (let* L := lift (psd_safe_cholesky induc_induc_covar) in ret (Tensor L)).

(** The property [prior_distribution], [@cached(name="prior_distribution_memo")];
    the body comes from the concrete subclass (here it raises
    [NotImplementedError]). *)
Definition prior_distribution : M pyobj :=
  cached "prior_distribution_memo" (fun s => (prior_distribution_body s, s)).

(** The property [variational_distribution],
    [@cached(name="variational_distribution_memo")] *)
Definition variational_distribution : M pyobj :=
  cached "variational_distribution_memo"
    (fun s => (generator_call (_variational_distribution s), s)).


(** [super().train(mode=mode)], which is [torch.nn.Module.train]: it sets
    [training] on the module and on its children, of which the
    variational-distribution object is one. *)
Definition Module_train (mode : bool) (s : strategy) : strategy :=
  set_variational_distribution
    (generator_train mode (_variational_distribution s))
    (set_training mode s).

(** [train(self, mode=True)] *)
Definition train (mode : bool) (s : strategy) : strategy :=
  let s :=
    if (training s && negb mode) || mode
    then (if hasattr_memoize_cache s then delattr_memoize_cache s else s)
    else s in
  Module_train mode s.

(** Lines 115-119: delete previously cached items. *)
Definition invalidate_cache : M unit :=
  fun s =>
    if training s
    then (Ok tt,
          log EvInvalidate
            (if hasattr_memoize_cache s
             then set_memoize_cache (Some ∅) (delattr_memoize_cache s)
             else s))
    else (Ok tt, s).

(** Lines 120-124: (maybe) initialize the variational distribution. *)
Definition maybe_initialize : M unit :=
  modify (log EvInitCheck) ;;
  let* flag := gets variational_params_initialized in
  if (flag =? 0)%Z
  then
    let* prior_dist := prior_distribution in
    modify (log (EvInitialize prior_dist)) ;;
    let* g := gets _variational_distribution in
    let* g' := lift (initialize_variational_distribution prior_dist g) in
    modify (set_variational_distribution g') ;;
    modify (set_variational_params_initialized 1)
  else ret tt.

(** Lines 126-134: expand the inducing points and [x], then get q(u). *)
Definition expand_and_retrieve (x : tensor) : M (tensor * tensor * pyobj) :=
  let* inducing_points := gets inducing_points in
  let* batch_shape := gets (fun s => batch_shape (_variational_distribution s)) in
  let* inducing_points := lift (expand batch_shape inducing_points) in
  let* x := lift (expand batch_shape x) in
  modify (log EvRetrieve) ;;
  let* variational_dist_u := variational_distribution in
  ret (x, inducing_points, variational_dist_u).

(** [super().__call__(...)] on the instance. *)
Definition super_call (x inducing_points inducing_values : tensor)
    (variational_inducing_covar : option lazy_tensor) : M pyobj :=
  modify (log (EvMarginalize x inducing_points inducing_values
                             variational_inducing_covar)) ;;
  fun s =>
    let '(r, c) := marginalize x inducing_points inducing_values
                               variational_inducing_covar s in
    (r, set_memoize_cache c s).

(** [a, b = v]: a tuple of two gives its components; any other object is
    iterated over and must yield exactly two items. *)
Definition unpack2 (v : pyobj) : result (pyobj * pyobj) :=
  match v with
  | Pair a b => Ok (a, b)
  | _ =>
      match py_iter v with
      | Ok [a; b] => Ok (a, b)
      | Ok [] =>
          Raise (OtherError "ValueError: not enough values to unpack (expected 2, got 0)")
      | Ok [_] =>
          Raise (OtherError "ValueError: not enough values to unpack (expected 2, got 1)")
      | Ok _ => Raise (OtherError "ValueError: too many values to unpack (expected 2)")
      | Raise e => Raise e
      end
  end.

(** [type(o)] as the f-string prints it. *)
Definition type_repr (o : pyobj) : string :=
  match o with
  | MultivariateNormal _ _ =>
      "<class 'gpytorch.distributions.multivariate_normal.MultivariateNormal'>"
  | Delta _ => "<class 'gpytorch.distributions.delta.Delta'>"
  | Tensor _ => "<class 'torch.Tensor'>"
  | Pair _ _ => "<class 'tuple'>"
  | Other type_name => type_name
  end.

Definition invalid_distribution_message (o : pyobj) : string :=
  "Invalid variational distribuition (" ++ type_repr o ++ "). "
  ++ "Expected a multivariate normal or a delta distribution.".

(** Lines 136-158: get q(f) and return. *)
Definition dispatch (x inducing_points : tensor) (variational_dist_u : pyobj)
    (return_map_dist : bool) : M pyobj :=
  let* preds :=
    match variational_dist_u with
    | MultivariateNormal mean lazy_covariance_matrix =>
        let* out := super_call x inducing_points mean (Some lazy_covariance_matrix) in
        lift (unpack2 out)
    | Delta mean =>
        let* pred_distribution := super_call x inducing_points mean None in
        let pred_distribution_map := pred_distribution in
        ret (pred_distribution, pred_distribution_map)
    | _ => raise (RuntimeError (invalid_distribution_message variational_dist_u))
    end in
  let '(pred_distribution, pred_distribution_map) := preds in
  if return_map_dist
  then ret (Pair pred_distribution pred_distribution_map)
  else ret pred_distribution.

(** The invocation up to and including line 134. *)
Definition call_prefix (x : tensor) : M (tensor * tensor * pyobj) :=
  invalidate_cache ;;
  maybe_initialize ;;
  expand_and_retrieve x.

(** [__call__(self, x, prior=False, return_map_dist=False)] *)
Definition __call__ (x : tensor) (prior return_map_dist : bool) : M pyobj :=
  if prior
  then lift (model_forward x)
  else
    let* got := call_prefix x in
    let '(x, inducing_points, variational_dist_u) := got in
    dispatch x inducing_points variational_dist_u return_map_dist.

(** *** Runs of an instance *)

Inductive op : Type :=
| OpCall (x : tensor) (prior return_map_dist : bool)
| OpTrain (mode : bool).

Definition step (o : op) (s : strategy) : strategy :=
  match o with
  | OpCall x prior return_map_dist => snd (__call__ x prior return_map_dist s)
  | OpTrain mode => train mode s
  end.

Definition run (ops : list op) (s : strategy) : strategy :=
  fold_left (fun s o => step o s) ops s.

Definition initialized (s : strategy) : bool :=
  negb (variational_params_initialized s =? 0)%Z.

Definition is_initialize (e : event) : bool :=
  match e with EvInitialize _ => true | _ => false end.

(** How many times [initialize_variational_distribution] has been called. *)
Definition init_calls (s : strategy) : nat :=
  length (filter (fun e => is_initialize e = true) (trace s)).

(** The rest of a non-prior invocation, after lines 115-119. *)
Definition call_after_invalidation (x : tensor) (return_map_dist : bool) : M pyobj :=
  let* got := (maybe_initialize ;; expand_and_retrieve x) in
  let '(x, inducing_points, variational_dist_u) := got in
  dispatch x inducing_points variational_dist_u return_map_dist.

(** No name has an entry in the cache. *)
Definition cache_is_empty (s : strategy) : Prop :=
  forall name, get_from_cache name s = None.


(** Lines 120-124 run to their end from the state that lines 115-119
    leave. *)
Definition initialization_completes (s : strategy) : bool :=
  match maybe_initialize (snd (invalidate_cache s)) with
  | (Ok _, _) => true
  | (Raise _, _) => false
  end.

(** A call with [prior=True], or a change of mode. *)
Definition no_inducing_machinery (o : op) : bool :=
  match o with
  | OpCall _ prior _ => prior
  | OpTrain _ => true
  end.

(** *** Memoization lemmas *)

Lemma get_from_cache_add name v s :
  get_from_cache name (add_to_cache name v s) = Some v.
Proof. unfold get_from_cache, add_to_cache. simpl. apply lookup_insert_eq. Qed.

Lemma get_from_cache_add_ne name name' v s :
  name <> name' ->
  get_from_cache name' (add_to_cache name v s) = get_from_cache name' s.
Proof.
  intros Hne. unfold get_from_cache, add_to_cache. simpl.
  rewrite lookup_insert_ne by exact Hne.
  destruct (_memoize_cache s); simpl; [reflexivity|apply lookup_empty].
Qed.

Lemma cached_miss name (method : M pyobj) s :
  get_from_cache name s = None ->
  cached name method s
  = match method s with
    | (Ok v, s') => (Ok v, add_to_cache name v s')
    | (Raise e, s') => (Raise e, s')
    end.
Proof. intros H. unfold cached. rewrite H. reflexivity. Qed.

Lemma cached_hit name (method : M pyobj) s v :
  get_from_cache name s = Some v -> cached name method s = (Ok v, s).
Proof. intros H. unfold cached. rewrite H. reflexivity. Qed.

Lemma cached_Ok name (method : M pyobj) s v s' :
  (forall s1 r s2, method s1 = (r, s2) -> s2 = s1) ->
  cached name method s = (Ok v, s') ->
  get_from_cache name s' = Some v
  /\ (forall name', get_from_cache name' s = Some v ->
                    name' = name -> s' = s)
  /\ (forall name', name' <> name -> get_from_cache name' s' = get_from_cache name' s)
  /\ training s' = training s
  /\ variational_params_initialized s' = variational_params_initialized s
  /\ _variational_distribution s' = _variational_distribution s
  /\ inducing_points s' = inducing_points s
  /\ trace s' = trace s.
Proof.
  intros Hpure. unfold cached.
  destruct (get_from_cache name s) as [v0|] eqn:Hget.
  - intros [= <- <-]. repeat split; auto.
  - destruct (method s) as [[v1|e] s1] eqn:Hm; [|discriminate].
    intros [= <- <-]. apply Hpure in Hm. subst s1.
    split; [apply get_from_cache_add|]. split.
    { intros name' H ->. congruence. }
    split; [|repeat split].
    intros name' Hne. apply get_from_cache_add_ne. congruence.
Qed.

(** *** The steps of an invocation, one by one *)

Ltac unfold_M := unfold bind, ret, raise, lift, gets, modify in *.

Lemma prior_distribution_body_pure s1 r s2 :
  (fun s => (prior_distribution_body s, s)) s1 = (r, s2) -> s2 = s1.
Proof. intros [= _ <-]. reflexivity. Qed.

Lemma generator_call_pure s1 r s2 :
  (fun s => (generator_call (_variational_distribution s), s)) s1 = (r, s2) -> s2 = s1.
Proof. intros [= _ <-]. reflexivity. Qed.

Lemma invalidate_cache_Ok s : fst (invalidate_cache s) = Ok tt.
Proof. unfold invalidate_cache. destruct (training s); reflexivity. Qed.

Lemma invalidate_cache_eq s : invalidate_cache s = (Ok tt, snd (invalidate_cache s)).
Proof. unfold invalidate_cache. destruct (training s); reflexivity. Qed.

Lemma invalidate_cache_empty s :
  training s = true -> cache_is_empty (snd (invalidate_cache s)).
Proof.
  intros Ht name. unfold invalidate_cache, get_from_cache. rewrite Ht. simpl.
  unfold hasattr_memoize_cache.
  destruct (_memoize_cache s) as [c|] eqn:Hc; simpl.
  - apply lookup_empty.
  - rewrite Hc. reflexivity.
Qed.

Lemma invalidate_cache_eval s :
  training s = false -> invalidate_cache s = (Ok tt, s).
Proof. intros Ht. unfold invalidate_cache. rewrite Ht. reflexivity. Qed.

Lemma invalidate_cache_frame s :
  let s' := snd (invalidate_cache s) in
  training s' = training s
  /\ variational_params_initialized s' = variational_params_initialized s
  /\ _variational_distribution s' = _variational_distribution s
  /\ inducing_points s' = inducing_points s
  /\ trace s' = (trace s ++ (if training s then [EvInvalidate] else []))%list.
Proof.
  unfold invalidate_cache. destruct (training s) eqn:Ht; simpl.
  - destruct (hasattr_memoize_cache s); simpl; auto.
  - rewrite Ht, app_nil_r. auto.
Qed.

Lemma maybe_initialize_unfold s :
  maybe_initialize s
  = let s1 := log EvInitCheck s in
    if (variational_params_initialized s =? 0)%Z
    then match prior_distribution s1 with
         | (Ok prior_dist, s2) =>
             let s3 := log (EvInitialize prior_dist) s2 in
             match initialize_variational_distribution prior_dist
                     (_variational_distribution s3) with
             | Ok g' =>
                 (Ok tt, set_variational_params_initialized 1
                           (set_variational_distribution g' s3))
             | Raise e => (Raise e, s3)
             end
         | (Raise e, s2) => (Raise e, s2)
         end
    else (Ok tt, s1).
Proof.
  unfold maybe_initialize. unfold_M. simpl.
  destruct (variational_params_initialized s =? 0)%Z; [|reflexivity].
  destruct (prior_distribution (log EvInitCheck s)) as [[p|e] s2]; [|reflexivity].
  simpl. destruct (initialize_variational_distribution p _); reflexivity.
Qed.

Lemma maybe_initialize_initialized s :
  initialized s = true -> maybe_initialize s = (Ok tt, log EvInitCheck s).
Proof.
  unfold initialized. intros H. rewrite maybe_initialize_unfold. simpl.
  destruct (variational_params_initialized s =? 0)%Z; [discriminate|reflexivity].
Qed.

(** What lines 120-124 leave behind: the check is logged, at most one call
    of [initialize_variational_distribution] follows it, and whatever the
    cache held it still holds. *)
Lemma maybe_initialize_frame s r s' :
  maybe_initialize s = (r, s') ->
  training s' = training s
  /\ inducing_points s' = inducing_points s
  /\ (exists l, trace s' = (trace s ++ EvInitCheck :: l)%list
        /\ (l = [] \/ exists p, l = [EvInitialize p]
                      /\ get_from_cache "prior_distribution_memo" s' = Some p)
        /\ (initialized s = false -> r = Ok tt -> l <> []))
  /\ (forall name v, get_from_cache name s = Some v -> get_from_cache name s' = Some v)
  /\ (r = Ok tt -> initialized s' = true)
  /\ (r <> Ok tt ->
      variational_params_initialized s' = variational_params_initialized s).
Proof.
  rewrite maybe_initialize_unfold. cbv zeta. unfold initialized.
  destruct (variational_params_initialized s =? 0)%Z eqn:Hflag.
  - destruct (prior_distribution (log EvInitCheck s)) as [[p|e] s2] eqn:Hp.
    + pose proof (cached_Ok _ _ _ _ _ prior_distribution_body_pure Hp)
        as (Hget & _ & Hother & Htr & Hfl & Hgen & Hip & Htrace).
      simpl in Htr, Hfl, Hgen, Hip, Htrace.
      assert (Hkeep : forall name v, get_from_cache name s = Some v ->
                                     get_from_cache name s2 = Some v).
      { intros name v Hv.
        destruct (decide (name = "prior_distribution_memo")) as [->|Hne].
        - assert (Hc : cached "prior_distribution_memo"
                         (fun s => (prior_distribution_body s, s)) (log EvInitCheck s)
                       = (Ok v, log EvInitCheck s)) by (apply cached_hit; exact Hv).
          unfold prior_distribution in Hp. congruence.
        - rewrite Hother by exact Hne. exact Hv. }
      assert (Hl : exists l, (trace s2 ++ [EvInitialize p] = trace s ++ EvInitCheck :: l)%list
                  /\ (l = [] \/ exists p0, l = [EvInitialize p0]
                        /\ get_from_cache "prior_distribution_memo" s2 = Some p0)
                  /\ l <> []).
      { exists [EvInitialize p]. rewrite Htrace. simpl. rewrite <- app_assoc.
        split; [reflexivity|]. split; [|discriminate].
        right. exists p. split; [reflexivity|exact Hget]. }
      destruct Hl as (l & Hl1 & Hl2 & Hl3).
      destruct (initialize_variational_distribution p _) as [g'|e] eqn:Hinit;
        intros [= <- <-]; simpl.
      * split; [exact Htr|]. split; [exact Hip|].
        split; [exists l; auto|]. split; [exact Hkeep|].
        split; [reflexivity|]. intros H. congruence.
      * split; [exact Htr|]. split; [exact Hip|].
        split; [exists l; auto|]. split; [exact Hkeep|].
        split; [discriminate|]. intros _. exact Hfl.
    + unfold prior_distribution, cached in Hp.
      destruct (get_from_cache _ _); [discriminate|].
      destruct (prior_distribution_body _); [discriminate|].
      injection Hp as <- <-. intros [= <- <-]. simpl.
      split; [reflexivity|]. split; [reflexivity|].
      split; [|split; [auto|split; [discriminate|reflexivity]]].
      exists []. split; [reflexivity|]. split; [left; reflexivity|discriminate].
  - intros [= <- <-]. simpl. rewrite Hflag.
    split; [reflexivity|]. split; [reflexivity|].
    split; [|split; [auto|split; [reflexivity|intros H; congruence]]].
    exists []. split; [reflexivity|]. split; [left; reflexivity|discriminate].
Qed.

Lemma maybe_initialize_other_names s r s' name :
  maybe_initialize s = (r, s') ->
  name <> "prior_distribution_memo" ->
  get_from_cache name s' = get_from_cache name s.
Proof.
  rewrite maybe_initialize_unfold. cbv zeta. intros H Hne.
  destruct (variational_params_initialized s =? 0)%Z.
  - destruct (prior_distribution (log EvInitCheck s)) as [[p|e] s2] eqn:Hp.
    + pose proof (cached_Ok _ _ _ _ _ prior_distribution_body_pure Hp)
        as (_ & _ & Hother & _).
      specialize (Hother name Hne).
      destruct (initialize_variational_distribution p _);
        injection H as _ <-; exact Hother.
    + unfold prior_distribution, cached in Hp.
      destruct (get_from_cache _ _); [discriminate|].
      destruct (prior_distribution_body _); [discriminate|].
      injection Hp as _ <-. injection H as _ <-. reflexivity.
  - injection H as _ <-. reflexivity.
Qed.

Lemma expand_and_retrieve_unfold x s :
  expand_and_retrieve x s
  = match expand (batch_shape (_variational_distribution s)) (inducing_points s) with
    | Ok ip' =>
        match expand (batch_shape (_variational_distribution s)) x with
        | Ok x' =>
            match variational_distribution (log EvRetrieve s) with
            | (Ok q, s') => (Ok (x', ip', q), s')
            | (Raise e, s') => (Raise e, s')
            end
        | Raise e => (Raise e, s)
        end
    | Raise e => (Raise e, s)
    end.
Proof.
  unfold expand_and_retrieve. unfold_M.
  destruct (expand _ (inducing_points s)); [|reflexivity].
  destruct (expand _ x); [|reflexivity].
  destruct (variational_distribution (log EvRetrieve s)) as [[q|e] s']; reflexivity.
Qed.

Lemma variational_distribution_Raise s e s' :
  variational_distribution s = (Raise e, s') -> s' = s.
Proof.
  unfold variational_distribution, cached.
  destruct (get_from_cache _ s); [discriminate|].
  destruct (generator_call _); [discriminate|]. intros [= _ <-]. reflexivity.
Qed.

(** What lines 126-134 leave behind. *)
Lemma expand_and_retrieve_frame x s r s' :
  expand_and_retrieve x s = (r, s') ->
  training s' = training s
  /\ variational_params_initialized s' = variational_params_initialized s
  /\ (exists l, trace s' = (trace s ++ l)%list
        /\ (l = [] \/ l = [EvRetrieve])
        /\ (forall v, r = Ok v -> l = [EvRetrieve]))
  /\ (forall name v, get_from_cache name s = Some v -> get_from_cache name s' = Some v)
  /\ (forall x' ip' q, r = Ok (x', ip', q) ->
        get_from_cache "variational_distribution_memo" s' = Some q
        /\ (is_Some (get_from_cache "variational_distribution_memo" s) ->
            _memoize_cache s' = _memoize_cache s)).
Proof.
  rewrite expand_and_retrieve_unfold.
  destruct (expand _ (inducing_points s)) as [ip'|e].
  2:{ intros [= <- <-]. split; [reflexivity|]. split; [reflexivity|].
      split; [|split; [auto|discriminate]].
      exists []. rewrite app_nil_r. split; [reflexivity|].
      split; [left; reflexivity|discriminate]. }
  destruct (expand _ x) as [x'|e].
  2:{ intros [= <- <-]. split; [reflexivity|]. split; [reflexivity|].
      split; [|split; [auto|discriminate]].
      exists []. rewrite app_nil_r. split; [reflexivity|].
      split; [left; reflexivity|discriminate]. }
  destruct (variational_distribution (log EvRetrieve s)) as [[q|e] s1] eqn:Hq.
  - pose proof (cached_Ok _ _ _ _ _ generator_call_pure Hq)
      as (Hget & _ & Hother & Htr & Hfl & Hgen & Hip & Htrace).
    simpl in Htr, Hfl, Hgen, Hip, Htrace.
    intros [= <- <-].
    split; [exact Htr|]. split; [exact Hfl|].
    split; [exists [EvRetrieve]; rewrite Htrace; auto|].
    split.
    + intros name v Hv.
      destruct (decide (name = "variational_distribution_memo")) as [->|Hne].
      * assert (Hc : variational_distribution (log EvRetrieve s)
                     = (Ok v, log EvRetrieve s)) by (apply cached_hit; exact Hv).
        congruence.
      * rewrite Hother by exact Hne. exact Hv.
    + intros x0 ip0 q0 [= -> -> ->]. split; [exact Hget|].
      intros [v Hv].
      assert (Hc : variational_distribution (log EvRetrieve s)
                   = (Ok v, log EvRetrieve s)) by (apply cached_hit; exact Hv).
      rewrite Hc in Hq. injection Hq as _ <-. reflexivity.
  - apply variational_distribution_Raise in Hq. subst s1.
    intros [= <- <-]. simpl.
    split; [reflexivity|]. split; [reflexivity|].
    split; [|split; [auto|discriminate]].
    exists [EvRetrieve]. split; [reflexivity|]. split; [right; reflexivity|reflexivity].
Qed.

Lemma expand_and_retrieve_other_names x s r s' name :
  expand_and_retrieve x s = (r, s') ->
  name <> "variational_distribution_memo" ->
  get_from_cache name s' = get_from_cache name s.
Proof.
  rewrite expand_and_retrieve_unfold. intros H Hne.
  destruct (expand _ (inducing_points s)); [|injection H as _ <-; reflexivity].
  destruct (expand _ x); [|injection H as _ <-; reflexivity].
  destruct (variational_distribution (log EvRetrieve s)) as [[q|e] s1] eqn:Hq.
  - pose proof (cached_Ok _ _ _ _ _ generator_call_pure Hq) as (_ & _ & Hother & _).
    injection H as _ <-. exact (Hother name Hne).
  - apply variational_distribution_Raise in Hq. subst s1.
    injection H as _ <-. reflexivity.
Qed.

(** What lines 136-158 leave behind. *)
Lemma dispatch_frame x ip q rmd s r s' :
  dispatch x ip q rmd s = (r, s') ->
  training s' = training s
  /\ variational_params_initialized s' = variational_params_initialized s
  /\ (exists l, trace s' = (trace s ++ l)%list
        /\ (l = [] \/ exists v c, l = [EvMarginalize x ip v c])).
Proof.
  unfold dispatch, super_call. unfold_M.
  assert (Hnone : forall s0 : strategy, exists l, trace s0 = (trace s0 ++ l)%list
            /\ (l = [] \/ exists v c, l = [EvMarginalize x ip v c])).
  { intros s0. exists []. rewrite app_nil_r. auto. }
  assert (Hone : forall (s0 : strategy) v c, exists l,
            (trace s0 ++ [EvMarginalize x ip v c] = trace s0 ++ l)%list
            /\ (l = [] \/ exists v c, l = [EvMarginalize x ip v c])).
  { intros s0 v c. exists [EvMarginalize x ip v c]. eauto. }
  destruct q as [mean cov|mean|t|a b|ty]; simpl.
  - destruct (marginalize x ip mean (Some cov) _) as [[out|e] c]; simpl.
    + destruct (unpack2 out) as [[p1 p2]|e]; [destruct rmd|];
        intros [= <- <-]; simpl; auto.
    + intros [= <- <-]; simpl; auto.
  - destruct (marginalize x ip mean None _) as [[out|e] c]; simpl;
      [destruct rmd|]; intros [= <- <-]; simpl; auto.
  - intros [= <- <-]. auto.
  - intros [= <- <-]. auto.
  - intros [= <- <-]. auto.
Qed.

Lemma call_prefix_unfold x s :
  call_prefix x s
  = match maybe_initialize (snd (invalidate_cache s)) with
    | (Ok _, s2) => expand_and_retrieve x s2
    | (Raise e, s2) => (Raise e, s2)
    end.
Proof.
  unfold call_prefix. unfold_M. rewrite (invalidate_cache_eq s). simpl.
  reflexivity.
Qed.

Lemma call_unfold x rmd s :
  __call__ x false rmd s
  = match call_prefix x s with
    | (Ok (x', ip', q), s3) => dispatch x' ip' q rmd s3
    | (Raise e, s3) => (Raise e, s3)
    end.
Proof.
  unfold __call__. unfold_M.
  destruct (call_prefix x s) as [[[[x' ip'] q]|e] s3]; reflexivity.
Qed.

Lemma call_after_invalidation_eq x rmd s :
  __call__ x false rmd s = call_after_invalidation x rmd (snd (invalidate_cache s)).
Proof.
  rewrite call_unfold, call_prefix_unfold. unfold call_after_invalidation. unfold_M.
  destruct (maybe_initialize _) as [[[]|e] s2]; [|reflexivity].
  destruct (expand_and_retrieve x s2) as [[[[x' ip'] q]|e] s3]; reflexivity.
Qed.

(** *** Properties of an invocation *)

(** C7. In a non-prior invocation in which q(u) is a [Delta], the
    marginalization step is called with the location of the point mass as
    inducing values and with [variational_inducing_covar=None], and what it
    returns is both the predictive and the MAP predictive: under
    [return_map_dist=True] the two components of the result are the same
    object. *)
Theorem delta_marginalizes_without_covariance
    (x : tensor) (return_map_dist : bool) (s : strategy)
    (x' ip' loc : tensor) (s3 : strategy) :
  call_prefix x s = (Ok (x', ip', Delta loc), s3) ->
  __call__ x false return_map_dist s
  = (match fst (marginalize x' ip' loc None
                  (log (EvMarginalize x' ip' loc None) s3)) with
     | Ok pred_distribution =>
         Ok (if return_map_dist
             then Pair pred_distribution pred_distribution
             else pred_distribution)
     | Raise e => Raise e
     end,
     set_memoize_cache
       (snd (marginalize x' ip' loc None (log (EvMarginalize x' ip' loc None) s3)))
       (log (EvMarginalize x' ip' loc None) s3)).
Proof.
  intros Hprefix. rewrite call_unfold, Hprefix.
  unfold dispatch, super_call. unfold_M. simpl.
  destruct (marginalize x' ip' loc None _) as [[pred|e] c]; simpl;
    [destruct return_map_dist|]; reflexivity.
Qed.

(** C2 (as amended). A non-prior invocation that retrieves a q(u) which is
    neither a [MultivariateNormal] nor a [Delta] raises the error of line
    150, whose message names the type of q(u), and returns no predictive
    distribution.  What the invocation wrote before stays written: the cache
    then holds the offending q(u) under ["variational_distribution_memo"],
    and in training mode it holds nothing else but the memoized prior.
    The cache is left as it was when the strategy is in evaluation mode,
    already initialized, and q(u) was already memoized. *)
Theorem invalid_distribution_raises
    (x : tensor) (return_map_dist : bool) (s : strategy)
    (x' ip' : tensor) (q : pyobj) (s3 : strategy) :
  call_prefix x s = (Ok (x', ip', q), s3) ->
  (forall mean covar, q <> MultivariateNormal mean covar) ->
  (forall mean, q <> Delta mean) ->
  __call__ x false return_map_dist s
  = (Raise (RuntimeError
            ("Invalid variational distribuition (" ++ type_repr q ++ "). "
             ++ "Expected a multivariate normal or a delta distribution.")), s3)
  /\ get_from_cache "variational_distribution_memo" s3 = Some q
  /\ (training s = true ->
      forall name, name <> "prior_distribution_memo" ->
                   name <> "variational_distribution_memo" ->
                   get_from_cache name s3 = None)
  /\ (training s = false -> initialized s = true ->
      is_Some (get_from_cache "variational_distribution_memo" s) ->
      _memoize_cache s3 = _memoize_cache s).
Proof.
  intros Hprefix Hmvn Hdelta. split; [|split; [|split]].
  - rewrite call_unfold, Hprefix. unfold dispatch. unfold_M.
    destruct q as [mean cov|mean|t|a b|ty]; try reflexivity.
    + now elim (Hmvn mean cov).
    + now elim (Hdelta mean).
  - rewrite call_prefix_unfold in Hprefix.
    destruct (maybe_initialize _) as [[[]|e] s2]; [|discriminate].
    apply expand_and_retrieve_frame in Hprefix as (_ & _ & _ & _ & Hq).
    apply (Hq x' ip' q eq_refl).
  - intros Htrain name Hne1 Hne2. rewrite call_prefix_unfold in Hprefix.
    destruct (maybe_initialize _) as [[[]|e] s2] eqn:H2; [|discriminate].
    rewrite (expand_and_retrieve_other_names _ _ _ _ _ Hprefix Hne2).
    rewrite (maybe_initialize_other_names _ _ _ _ H2 Hne1).
    apply invalidate_cache_empty, Htrain.
  - intros Heval Hinit Hmemo. rewrite call_prefix_unfold in Hprefix.
    rewrite (invalidate_cache_eval s Heval) in Hprefix. simpl in Hprefix.
    rewrite (maybe_initialize_initialized s Hinit) in Hprefix.
    apply expand_and_retrieve_frame in Hprefix as (_ & _ & _ & _ & Hq).
    apply (Hq x' ip' q eq_refl). exact Hmemo.
Qed.

Lemma train_frame mode s :
  variational_params_initialized (train mode s) = variational_params_initialized s
  /\ trace (train mode s) = trace s
  /\ training (train mode s) = mode.
Proof.
  unfold train, Module_train.
  destruct ((training s && negb mode) || mode); [destruct (hasattr_memoize_cache s)|];
    simpl; auto.
Qed.

(** C3 (as amended). [train(mode)] deletes the whole cache whenever the
    instance is in training mode or [mode] is true, that is on every change
    between training and evaluation mode and on every re-entry into training
    mode; a non-prior [__call__] in training mode first empties the cache
    and runs the rest of the invocation from there; and a memoized method
    run on an emptied cache computes its value anew and stores it. *)
Theorem mode_change_clears_cache (s : strategy) (mode : bool) :
  ((training s = true \/ mode = true) ->
     _memoize_cache (train mode s) = None /\ cache_is_empty (train mode s))
  /\ (training s = true ->
      cache_is_empty (snd (invalidate_cache s))
      /\ forall x return_map_dist,
           __call__ x false return_map_dist s
           = call_after_invalidation x return_map_dist (snd (invalidate_cache s)))
  /\ (forall s0 name (method : M pyobj),
        cache_is_empty s0 ->
        cached name method s0
        = match method s0 with
          | (Ok v, s') => (Ok v, add_to_cache name v s')
          | (Raise e, s') => (Raise e, s')
          end).
Proof.
  split; [|split].
  - intros Hmode.
    assert (Hnone : _memoize_cache (train mode s) = None).
    { unfold train, Module_train.
      assert (Hc : (training s && negb mode) || mode = true)
        by (destruct Hmode as [Ht | Hm];
            [rewrite Ht; destruct mode; reflexivity | rewrite Hm; apply orb_true_r]).
      rewrite Hc. unfold hasattr_memoize_cache.
      destruct (_memoize_cache s) eqn:Hcache; simpl; [reflexivity|exact Hcache]. }
    split; [exact Hnone|]. intros name. unfold get_from_cache. rewrite Hnone.
    reflexivity.
  - intros Ht. split; [apply invalidate_cache_empty, Ht|].
    intros x rmd. apply call_after_invalidation_eq.
  - intros s0 name method Hempty. apply cached_miss, Hempty.
Qed.


(** The events that one non-prior invocation adds to the log. *)
Lemma call_trace x rmd s :
  exists l2 l3 l4,
    trace (snd (__call__ x false rmd s))
    = (trace s ++ (if training s then [EvInvalidate] else [])
               ++ EvInitCheck :: l2 ++ l3 ++ l4)%list
    /\ (l2 = [] \/ exists p, l2 = [EvInitialize p])
    /\ (l3 = [] \/ l3 = [EvRetrieve])
    /\ (l4 = [] \/ exists x' ip' v c, l4 = [EvMarginalize x' ip' v c])
    /\ (initialized s = true -> l2 = []).
Proof.
  rewrite call_unfold, call_prefix_unfold.
  destruct (invalidate_cache_frame s) as (_ & Hfl1 & _ & _ & Htr1).
  destruct (maybe_initialize _) as [r2 s2] eqn:H2.
  destruct (maybe_initialize_frame _ _ _ H2) as (_ & _ & (l2 & Htr2 & Hl2 & _) & _).
  assert (Hl2' : l2 = [] \/ exists p, l2 = [EvInitialize p]).
  { destruct Hl2 as [->|(p & -> & _)]; eauto. }
  assert (Hinit : initialized s = true -> l2 = []).
  { intros Hi. rewrite maybe_initialize_initialized in H2.
    - injection H2 as _ <-. simpl in Htr2.
      apply app_inv_head in Htr2. now injection Htr2 as <-.
    - unfold initialized in *. rewrite Hfl1. exact Hi. }
  rewrite Htr1 in Htr2.
  destruct r2 as [[]|e].
  2:{ exists l2, [], []. simpl. rewrite Htr2, app_nil_r, <- app_assoc.
      repeat split; auto. }
  destruct (expand_and_retrieve x s2) as [r3 s3] eqn:H3.
  destruct (expand_and_retrieve_frame _ _ _ _ H3) as (_ & _ & (l3 & Htr3 & Hl3 & _) & _).
  destruct r3 as [[[x' ip'] q]|e].
  2:{ exists l2, l3, []. simpl. rewrite Htr3, Htr2, app_nil_r, <- !app_assoc.
      repeat split; auto. }
  destruct (dispatch x' ip' q rmd s3) as [r4 s4] eqn:H4.
  destruct (dispatch_frame _ _ _ _ _ _ _ H4) as (_ & _ & (l4 & Htr4 & Hl4)).
  exists l2, l3, l4. simpl. rewrite Htr4, Htr3, Htr2, <- !app_assoc. simpl.
  split; [reflexivity|]. split; [exact Hl2'|]. split; [exact Hl3|].
  split; [|exact Hinit].
  destruct Hl4 as [->|(v & c & ->)]; eauto 6.
Qed.




(** *** Runs *)

Lemma init_calls_app (s s' : strategy) (l : list event) :
  trace s' = (trace s ++ l)%list ->
  Forall (fun e => is_initialize e = false) l ->
  init_calls s' = init_calls s.
Proof.
  intros Htr Hl. unfold init_calls. rewrite Htr, filter_app, length_app.
  clear Htr. replace (filter (fun e => is_initialize e = true) l) with (@nil event); [simpl; lia|].
  symmetry. induction Hl as [|e l He Hl IH]; [reflexivity|].
  rewrite filter_cons_False by congruence. exact IH.
Qed.

Lemma no_inducing_machinery_step o s :
  no_inducing_machinery o = true ->
  initialized (step o s) = initialized s /\ init_calls (step o s) = init_calls s.
Proof.
  destruct o as [x prior rmd|mode]; simpl.
  - intros ->. unfold __call__, lift. simpl. auto.
  - intros _. destruct (train_frame mode s) as (Hfl & Htr & _).
    unfold initialized, init_calls. rewrite Hfl, Htr. auto.
Qed.

Lemma call_flag x rmd s :
  variational_params_initialized (snd (__call__ x false rmd s))
  = variational_params_initialized (snd (maybe_initialize (snd (invalidate_cache s)))).
Proof.
  rewrite call_unfold, call_prefix_unfold.
  destruct (maybe_initialize _) as [[[]|e] s2]; [|reflexivity]. simpl.
  destruct (expand_and_retrieve x s2) as [r3 s3] eqn:H3.
  destruct (expand_and_retrieve_frame _ _ _ _ H3) as (_ & Hfl3 & _).
  destruct r3 as [[[x' ip'] q]|e]; [|exact Hfl3].
  destruct (dispatch x' ip' q rmd s3) as [r4 s4] eqn:H4.
  destruct (dispatch_frame _ _ _ _ _ _ _ H4) as (_ & Hfl4 & _).
  simpl. congruence.
Qed.

Lemma step_call x prior rmd s :
  step (OpCall x prior rmd) s = snd (__call__ x prior rmd s).
Proof. reflexivity. Qed.

Lemma step_initialized o s :
  initialized s = true ->
  initialized (step o s) = true /\ init_calls (step o s) = init_calls s.
Proof.
  intros Hi. destruct (no_inducing_machinery o) eqn:Ho.
  - destruct (no_inducing_machinery_step o s Ho) as [-> ->]. auto.
  - destruct o as [x prior rmd|mode]; [|discriminate]. simpl in Ho. subst prior.
    rewrite step_call. split.
    + unfold initialized. rewrite call_flag.
      destruct (invalidate_cache_frame s) as (_ & Hfl1 & _).
      rewrite maybe_initialize_initialized
        by (unfold initialized in *; rewrite Hfl1; exact Hi).
      simpl. rewrite Hfl1. exact Hi.
    + destruct (call_trace x rmd s) as (l2 & l3 & l4 & Htr & _ & Hl3 & Hl4 & Hl2).
      rewrite (Hl2 Hi) in Htr. eapply init_calls_app; [exact Htr|].
      destruct Hl3 as [-> | ->]; destruct Hl4 as [->|(x1 & ip1 & v & c & ->)];
        destruct (training s); simpl; repeat constructor.
Qed.

Lemma run_initialized ops s :
  initialized s = true ->
  initialized (run ops s) = true /\ init_calls (run ops s) = init_calls s.
Proof.
  revert s. induction ops as [|o ops IH]; intros s Hi; simpl; [auto|].
  destruct (step_initialized o s Hi) as [Hi' Hc'].
  destruct (IH _ Hi') as [Hi'' Hc'']. split; [exact Hi''|congruence].
Qed.

(** The first non-prior invocation whose initialization runs to its end. *)
Lemma call_initializes x rmd s :
  initialized s = false -> initialization_completes s = true ->
  initialized (step (OpCall x false rmd) s) = true
  /\ init_calls (step (OpCall x false rmd) s) = S (init_calls s).
Proof.
  intros Hi Hc. unfold initialization_completes in Hc. rewrite step_call.
  destruct (invalidate_cache_frame s) as (_ & Hfl1 & _ & _ & Htr1).
  destruct (maybe_initialize _) as [r2 s2] eqn:H2.
  destruct r2 as [[]|e]; [|discriminate].
  destruct (maybe_initialize_frame _ _ _ H2)
    as (_ & _ & (l2 & Htr2 & Hl2 & Hne) & _ & Hset & _).
  split.
  - unfold initialized. rewrite call_flag, H2. simpl. apply (Hset eq_refl).
  - assert (Hi1 : initialized (snd (invalidate_cache s)) = false)
      by (unfold initialized in *; rewrite Hfl1; exact Hi).
    specialize (Hne Hi1 eq_refl).
    destruct Hl2 as [->|(p & -> & _)]; [congruence|].
    rewrite call_unfold, call_prefix_unfold, H2.
    assert (Hs2 : init_calls s2 = S (init_calls s)).
    { unfold init_calls. rewrite Htr2, Htr1, !filter_app, !length_app.
      destruct (training s); simpl;
        rewrite ?filter_cons_False, ?filter_cons_True by (simpl; congruence);
        simpl; lia. }
    destruct (expand_and_retrieve x s2) as [r3 s3] eqn:H3.
    destruct (expand_and_retrieve_frame _ _ _ _ H3) as (_ & _ & (l3 & Htr3 & Hl3 & _) & _).
    assert (Hs3 : init_calls s3 = init_calls s2).
    { eapply init_calls_app; [exact Htr3|].
      destruct Hl3 as [-> | ->]; repeat constructor. }
    destruct r3 as [[[x' ip'] q]|e]; [|simpl; congruence].
    destruct (dispatch x' ip' q rmd s3) as [r4 s4] eqn:H4.
    destruct (dispatch_frame _ _ _ _ _ _ _ H4) as (_ & _ & (l4 & Htr4 & Hl4)).
    simpl. rewrite <- Hs2, <- Hs3. eapply init_calls_app; [exact Htr4|].
    destruct Hl4 as [->|(v & c & ->)]; repeat constructor.
Qed.

(** C4 (as amended). Initialization is triggered by a non-prior invocation
    made while the flag is unset, never by a prior-mode call or a change of
    mode.  If lines 120-124 of the first such invocation run to their end
    (the prior is computed and [initialize_variational_distribution]
    returns), that invocation calls [initialize_variational_distribution]
    once and sets the flag; from then on, whatever is invoked, the flag
    stays set and initialization is not triggered again.  If they raise, the
    flag stays unset. *)
Theorem initialization_happens_once (s : strategy) :
  (forall o, no_inducing_machinery o = true ->
     initialized (step o s) = initialized s /\ init_calls (step o s) = init_calls s)
  /\ (initialized s = false -> initialization_completes s = true ->
      forall x return_map_dist ops,
        initialized (run (OpCall x false return_map_dist :: ops) s) = true
        /\ init_calls (run (OpCall x false return_map_dist :: ops) s)
           = S (init_calls s))
  /\ (initialized s = true ->
      forall ops, initialized (run ops s) = true
                  /\ init_calls (run ops s) = init_calls s)
  /\ (initialized s = false -> initialization_completes s = false ->
      forall x return_map_dist,
        initialized (step (OpCall x false return_map_dist) s) = false).
Proof.
  split; [|split; [|split]].
  - intros o Ho. apply no_inducing_machinery_step, Ho.
  - intros Hi Hc x rmd ops.
    destruct (call_initializes x rmd s Hi Hc) as [Hi' Hc'].
    change (run (OpCall x false rmd :: ops) s)
      with (run ops (step (OpCall x false rmd) s)).
    destruct (run_initialized ops _ Hi') as [Hi'' Hc'']. split; [exact Hi''|congruence].
  - intros Hi ops. apply run_initialized, Hi.
  - intros Hi Hc x rmd. unfold initialization_completes in Hc.
    rewrite step_call. unfold initialized. rewrite call_flag.
    destruct (invalidate_cache_frame s) as (_ & Hfl1 & _).
    destruct (maybe_initialize _) as [r2 s2] eqn:H2.
    destruct r2 as [[]|e]; [discriminate|].
    destruct (maybe_initialize_frame _ _ _ H2) as (_ & _ & _ & _ & _ & Hsame).
    simpl. rewrite Hsame by discriminate. rewrite Hfl1. exact Hi.
Qed.


(** *** Further properties of the strategy *)

(** X12. [train(mode)] sets the mode of the strategy and of its
    variational-distribution object and touches neither the initialization
    flag nor the inducing points; called with [mode=False] on a strategy
    that is already in evaluation mode, it keeps the cache. *)
Theorem train_sets_mode (s : strategy) (mode : bool) :
  training (train mode s) = mode
  /\ variational_params_initialized (train mode s) = variational_params_initialized s
  /\ inducing_points (train mode s) = inducing_points s
  /\ _variational_distribution (train mode s)
     = generator_train mode (_variational_distribution s)
  /\ (training s = false -> mode = false ->
      _memoize_cache (train mode s) = _memoize_cache s).
Proof.
  unfold train, Module_train.
  destruct ((training s && negb mode) || mode) eqn:Hc;
    [destruct (hasattr_memoize_cache s)|]; simpl; repeat split; auto;
    intros Ht Hm; rewrite Ht, Hm in Hc; discriminate Hc.
Qed.



(** X14. When q(u) is a [MultivariateNormal], the marginalization step is
    called with its mean and its lazy covariance matrix; the pair that the
    step returns is the predictive and the MAP predictive, and [__call__]
    returns the first of them, or both under [return_map_dist=True]. *)
Theorem multivariate_normal_marginalizes_with_covariance
    (x : tensor) (return_map_dist : bool) (s : strategy)
    (x' ip' mean : tensor) (covar : lazy_tensor) (s3 : strategy)
    (pred_distribution pred_distribution_map : pyobj)
    (c : option (gmap string pyobj)) :
  call_prefix x s = (Ok (x', ip', MultivariateNormal mean covar), s3) ->
  marginalize x' ip' mean (Some covar)
    (log (EvMarginalize x' ip' mean (Some covar)) s3)
  = (Ok (Pair pred_distribution pred_distribution_map), c) ->
  __call__ x false return_map_dist s
  = (Ok (if return_map_dist
         then Pair pred_distribution pred_distribution_map
         else pred_distribution),
     set_memoize_cache c (log (EvMarginalize x' ip' mean (Some covar)) s3)).
Proof.
  intros Hprefix Hm. rewrite call_unfold, Hprefix.
  unfold dispatch, super_call. unfold_M. simpl. rewrite Hm. simpl.
  destruct return_map_dist; reflexivity.
Qed.

(** X15. No invocation changes the mode of the strategy, and an invocation
    with [prior=True] returns what the model's [forward] returns on [x] and
    leaves the whole instance as it is: no cache reset, no initialization,
    no retrieval. *)
Theorem call_keeps_mode (x : tensor) (prior return_map_dist : bool) (s : strategy) :
  training (snd (__call__ x prior return_map_dist s)) = training s
  /\ (prior = true ->
      __call__ x prior return_map_dist s = (model_forward x, s)).
Proof.
  split.
  - destruct prior; [reflexivity|].
    rewrite call_unfold, call_prefix_unfold.
    destruct (invalidate_cache_frame s) as (Ht1 & _).
    destruct (maybe_initialize _) as [r2 s2] eqn:H2.
    destruct (maybe_initialize_frame _ _ _ H2) as (Ht2 & _).
    destruct r2 as [[]|e]; [|simpl; congruence].
    destruct (expand_and_retrieve x s2) as [r3 s3] eqn:H3.
    destruct (expand_and_retrieve_frame _ _ _ _ H3) as (Ht3 & _).
    destruct r3 as [[[x' ip'] q]|e]; [|simpl; congruence].
    destruct (dispatch x' ip' q return_map_dist s3) as [r4 s4] eqn:H4.
    destruct (dispatch_frame _ _ _ _ _ _ _ H4) as (Ht4 & _).
    simpl. congruence.
  - intros ->. reflexivity.
Qed.


(** X16. In evaluation mode an initialized strategy that has memoized q(u)
    goes on using the memoized object: the invocation neither resets the
    cache nor asks the variational-distribution object again, so what that
    object would return now plays no part. *)
Theorem eval_call_uses_memoized_distribution
    (x : tensor) (s : strategy) (q : pyobj) (x' ip' : tensor) :
  training s = false -> initialized s = true ->
  get_from_cache "variational_distribution_memo" s = Some q ->
  expand (batch_shape (_variational_distribution s)) (inducing_points s) = Ok ip' ->
  expand (batch_shape (_variational_distribution s)) x = Ok x' ->
  call_prefix x s = (Ok (x', ip', q), log EvRetrieve (log EvInitCheck s)).
Proof.
  intros Heval Hinit Hmemo Hip Hx.
  rewrite call_prefix_unfold, (invalidate_cache_eval s Heval). cbn [snd].
  rewrite (maybe_initialize_initialized s Hinit), expand_and_retrieve_unfold.
  cbn [_variational_distribution inducing_points log]. rewrite Hip, Hx.
  unfold variational_distribution.
  rewrite (cached_hit _ _ _ q); [reflexivity|exact Hmemo].
Qed.

End VariationalStrategy.

(** *** A concrete instance

    Tensors carry no data, the variational-distribution object is the
    distribution it returns, the prior is a [MultivariateNormal], and the
    marginalization step returns an object of class [Predictive] and leaves
    the cache alone.  [init_ok] says whether
    [initialize_variational_distribution] returns or raises. *)

Definition ex_obj : Type := pyobj unit unit.
Definition ex_strategy : Type := strategy unit unit ex_obj.

Definition ex_model_forward (_ : unit) : result ex_obj :=
  Ok (Other unit unit "ModelOutput").
Definition ex_generator_call (g : ex_obj) : result ex_obj := Ok g.
Definition ex_batch_shape (_ : ex_obj) : list nat := [].
Definition ex_initialize (init_ok : bool) (_ g : ex_obj) : result ex_obj :=
  if init_ok then Ok g else Raise (RuntimeError "shape mismatch").
Definition ex_generator_train (_ : bool) (g : ex_obj) : ex_obj := g.
Definition ex_prior (_ : ex_strategy) : result ex_obj :=
  Ok (MultivariateNormal unit unit tt tt).
Definition ex_expand (_ : list nat) (t : unit) : result unit := Ok t.
Definition ex_py_iter (_ : ex_obj) : result (list ex_obj) :=
  Raise (TypeError "cannot unpack non-iterable object").
Definition ex_marginalize (_ _ _ : unit) (_ : option unit) (s : ex_strategy)
  : result ex_obj * option (gmap string ex_obj) :=
  (Ok (Other unit unit "Predictive"), _memoize_cache unit unit ex_obj s).

Definition ex_call (init_ok : bool) :=
  __call__ unit unit ex_obj ex_model_forward ex_generator_call ex_batch_shape
    (ex_initialize init_ok) ex_prior ex_expand ex_py_iter ex_marginalize.

Definition ex_call_prefix (init_ok : bool) :=
  call_prefix unit unit ex_obj ex_generator_call ex_batch_shape
    (ex_initialize init_ok) ex_prior ex_expand.

Definition ex_run (init_ok : bool) :=
  run unit unit ex_obj ex_model_forward ex_generator_call ex_batch_shape
    (ex_initialize init_ok) ex_generator_train ex_prior ex_expand ex_py_iter
    ex_marginalize.

Definition ex_train := train unit unit ex_obj ex_generator_train.

Definition ex_state (training : bool) (cache : option (gmap string ex_obj))
    (flag : Z) (q : ex_obj) : ex_strategy :=
  {| training := training;
     _memoize_cache := cache;
     variational_params_initialized := flag;
     inducing_points := tt;
     _variational_distribution := q;
     trace := [] |}.

(** A new instance: in training mode, without a cache, not initialized. *)
Definition ex_fresh : ex_strategy :=
  __init__ unit unit ex_obj (fun _ => 2%nat) (fun t => t)
           tt (MultivariateNormal unit unit tt tt) true.

(** An initialized instance in training mode with a memoized Cholesky
    factor, whose q(u) is of class [Categorical]. *)
Definition ex_categorical : ex_strategy :=
  ex_state true (Some {["cholesky_factor" := Tensor unit unit tt]}) 1
           (Other unit unit "Categorical").

(** The same q(u), already memoized, in evaluation mode. *)
Definition ex_categorical_eval : ex_strategy :=
  ex_state false
           (Some {["variational_distribution_memo" := Other unit unit "Categorical"]})
           1 (Other unit unit "Categorical").

(** An initialized instance in evaluation mode whose q(u) is a [Delta]. *)
Definition ex_delta : ex_strategy :=
  ex_state false None 1 (Delta unit unit tt).

Lemma delta_marginalizes_without_covariance_witness :
  ex_call true tt false true ex_delta
  = (Ok (Pair unit unit (Other unit unit "Predictive") (Other unit unit "Predictive")),
     snd (ex_call true tt false true ex_delta))
  /\ In (EvMarginalize unit unit tt tt tt None)
        (trace unit unit ex_obj (snd (ex_call true tt false true ex_delta))).
Proof.
  pose proof (delta_marginalizes_without_covariance unit unit ex_obj
                ex_model_forward ex_generator_call ex_batch_shape
                (ex_initialize true) ex_prior ex_expand ex_py_iter ex_marginalize
                tt true ex_delta tt tt tt
                (snd (ex_call_prefix true tt ex_delta)) eq_refl) as H.
  unfold ex_call. rewrite H. split; [reflexivity|].
  simpl. auto.
Defined.

Lemma invalid_distribution_raises_witness :
  ex_call true tt false false ex_categorical_eval
  = (Raise (RuntimeError
       "Invalid variational distribuition (Categorical). Expected a multivariate normal or a delta distribution."),
     snd (ex_call_prefix true tt ex_categorical_eval))
  /\ _memoize_cache unit unit ex_obj (snd (ex_call_prefix true tt ex_categorical_eval))
     = _memoize_cache unit unit ex_obj ex_categorical_eval.
Proof.
  destruct (invalid_distribution_raises unit unit ex_obj
              ex_model_forward ex_generator_call ex_batch_shape
              (ex_initialize true) ex_prior ex_expand ex_py_iter ex_marginalize
              tt false ex_categorical_eval tt tt (Other unit unit "Categorical")
              (snd (ex_call_prefix true tt ex_categorical_eval)) eq_refl
              ltac:(discriminate) ltac:(discriminate)) as (H1 & _ & _ & H3).
  split; [exact H1|].
  apply H3; [reflexivity|reflexivity|eexists; reflexivity].
Defined.

(** C2 as stated fails: in training mode, an initialized instance that
    holds a memoized Cholesky factor and whose q(u) is of class
    [Categorical] raises the error, and the failed call has changed the
    cache: the Cholesky factor is gone. *)
Lemma failed_call_changes_cache :
  fst (ex_call true tt false false ex_categorical)
  = Raise (RuntimeError
      "Invalid variational distribuition (Categorical). Expected a multivariate normal or a delta distribution.")
  /\ get_from_cache unit unit ex_obj "cholesky_factor" ex_categorical
     = Some (Tensor unit unit tt)
  /\ get_from_cache unit unit ex_obj "cholesky_factor"
       (snd (ex_call true tt false false ex_categorical)) = None
  /\ _memoize_cache unit unit ex_obj (snd (ex_call true tt false false ex_categorical))
     <> _memoize_cache unit unit ex_obj ex_categorical.
Proof.
  assert (H1 : get_from_cache unit unit ex_obj "cholesky_factor" ex_categorical
               = Some (Tensor unit unit tt)) by reflexivity.
  assert (H2 : get_from_cache unit unit ex_obj "cholesky_factor"
                 (snd (ex_call true tt false false ex_categorical)) = None)
    by reflexivity.
  split; [reflexivity|]. split; [exact H1|]. split; [exact H2|].
  intros Heq. unfold get_from_cache in H1, H2. rewrite Heq in H2. congruence.
Qed.

Lemma mode_change_clears_cache_witness :
  _memoize_cache unit unit ex_obj (ex_train false ex_categorical) = None
  /\ cache_is_empty unit unit ex_obj
       (snd (invalidate_cache unit unit ex_obj ex_categorical)).
Proof.
  destruct (mode_change_clears_cache unit unit ex_obj
              ex_model_forward ex_generator_call ex_batch_shape
              (ex_initialize true) ex_generator_train ex_prior ex_expand
              ex_py_iter ex_marginalize ex_categorical false) as (H1 & H2 & _).
  split.
  - apply H1. left. reflexivity.
  - apply H2. reflexivity.
Defined.

(** C3 as stated fails: a call with [prior=True] made in training mode
    returns the model's output and leaves the cache as it was, memoized
    Cholesky factor included. *)
Lemma prior_call_keeps_cache :
  training unit unit ex_obj ex_categorical = true
  /\ ex_call true tt true false ex_categorical
     = (Ok (Other unit unit "ModelOutput"), ex_categorical)
  /\ get_from_cache unit unit ex_obj "cholesky_factor"
       (snd (ex_call true tt true false ex_categorical))
     = Some (Tensor unit unit tt).
Proof. repeat split. Qed.



Definition ex_ops : list (op unit) :=
  [OpCall unit tt false false; OpTrain unit false;
   OpCall unit tt false true; OpCall unit tt true false;
   OpTrain unit true; OpCall unit tt false false].

Lemma initialization_happens_once_witness :
  initialized unit unit ex_obj (ex_run true ex_ops ex_fresh) = true
  /\ init_calls unit unit ex_obj (ex_run true ex_ops ex_fresh) = 1%nat.
Proof.
  destruct (initialization_happens_once unit unit ex_obj
              ex_model_forward ex_generator_call ex_batch_shape
              (ex_initialize true) ex_generator_train ex_prior ex_expand
              ex_py_iter ex_marginalize ex_fresh) as (_ & H & _).
  exact (H eq_refl eq_refl tt false _).
Defined.

(** C4 as stated fails: when [initialize_variational_distribution] raises,
    the first invocation leaves the flag unset and the second invocation
    triggers the initialization again. *)
Lemma initialization_triggered_twice :
  fst (ex_call false tt false false ex_fresh) = Raise (RuntimeError "shape mismatch")
  /\ init_calls unit unit ex_obj
       (ex_run false [OpCall unit tt false false] ex_fresh) = 1%nat
  /\ initialized unit unit ex_obj
       (ex_run false [OpCall unit tt false false] ex_fresh) = false
  /\ init_calls unit unit ex_obj
       (ex_run false [OpCall unit tt false false; OpCall unit tt false false] ex_fresh)
     = 2%nat.
Proof. repeat split. Qed.


(** *** The further properties on the concrete instance *)


(** A marginalization step that returns a pair of distributions. *)
Definition ex_marginalize_pair (_ _ _ : unit) (_ : option unit) (s : ex_strategy)
  : result ex_obj * option (gmap string ex_obj) :=
  (Ok (Pair unit unit (Other unit unit "Predictive") (Other unit unit "MapPredictive")),
   _memoize_cache unit unit ex_obj s).

(** An initialized instance in evaluation mode whose q(u) is Gaussian. *)
Definition ex_gaussian : ex_strategy :=
  ex_state false None 1 (MultivariateNormal unit unit tt tt).

(** An instance in evaluation mode that has memoized a [Delta] while its
    variational-distribution object would now return a Gaussian. *)
Definition ex_stale : ex_strategy :=
  ex_state false (Some {["variational_distribution_memo" := Delta unit unit tt]})
           1 (MultivariateNormal unit unit tt tt).

Lemma train_sets_mode_witness :
  _memoize_cache unit unit ex_obj (ex_train false ex_categorical_eval)
  = _memoize_cache unit unit ex_obj ex_categorical_eval.
Proof.
  destruct (train_sets_mode unit unit ex_obj ex_generator_train
              ex_categorical_eval false) as (_ & _ & _ & _ & H).
  exact (H eq_refl eq_refl).
Defined.


Lemma multivariate_normal_marginalizes_with_covariance_witness :
  fst (__call__ unit unit ex_obj ex_model_forward ex_generator_call ex_batch_shape
         (ex_initialize true) ex_prior ex_expand ex_py_iter ex_marginalize_pair
         tt false false ex_gaussian)
  = Ok (Other unit unit "Predictive").
Proof.
  rewrite (multivariate_normal_marginalizes_with_covariance unit unit ex_obj
             ex_model_forward ex_generator_call ex_batch_shape
             (ex_initialize true) ex_prior ex_expand ex_py_iter ex_marginalize_pair
             tt false ex_gaussian tt tt tt tt
             (snd (ex_call_prefix true tt ex_gaussian))
             (Other unit unit "Predictive") (Other unit unit "MapPredictive")
             _ eq_refl eq_refl).
  reflexivity.
Defined.

Lemma call_keeps_mode_witness :
  ex_call true tt true false ex_categorical
  = (ex_model_forward tt, ex_categorical).
Proof.
  exact (proj2 (call_keeps_mode unit unit ex_obj ex_model_forward ex_generator_call
                  ex_batch_shape (ex_initialize true) ex_prior ex_expand ex_py_iter
                  ex_marginalize tt true false ex_categorical) eq_refl).
Defined.

Lemma eval_call_uses_memoized_distribution_witness :
  fst (ex_call_prefix true tt ex_stale) = Ok (tt, tt, Delta unit unit tt).
Proof.
  unfold ex_call_prefix.
  rewrite (eval_call_uses_memoized_distribution unit unit ex_obj
             ex_generator_call ex_batch_shape (ex_initialize true) ex_prior ex_expand
             tt ex_stale (Delta unit unit tt) tt tt
             eq_refl eq_refl eq_refl eq_refl eq_refl).
  reflexivity.
Defined.

End Strategy.
